(** * blkmirror: the mirrored-write block driver

    A shallow embedding of QEMU's [blkmirror] block driver (the file that
    opens with "Block driver for mirrored writes") and the properties its
    design document states about it.

    The driver stacks a virtual device on a source image and a target
    image.  Reads and flushes go to the source, length and allocation
    queries to the target, writes and discards to both, merged by a small
    completion combinator ([DupAIOCB]).

    Layout of the development:
    - C helpers on strings and [int];
    - the store of [BlockDriverState] objects and the monad the driver's
      functions run in;
    - the generic block layer the driver calls, as far as the driver
      depends on it (its behaviour is a parameter wherever the driver does
      not decide it);
    - the driver's functions, in the order of the source;
    - the environment of one mirrored request (backend completions and the
      caller's cancel) and the properties. *)

From Stdlib Require Import ZArith String Ascii Bool Lia.
From stdpp Require Import base decidable option list gmap strings.

Open Scope Z_scope.

(** ** C helpers *)

(** [int] is 32 bits wide; [int_wrap] is the value a two's complement
    machine stores for an arithmetic result. *)
Definition INT_MIN : Z := - 2 ^ 31.
Definition INT_MAX : Z := 2 ^ 31 - 1.
Definition int_wrap (z : Z) : Z := (z + 2 ^ 31) mod 2 ^ 32 - 2 ^ 31.
Definition in_int (z : Z) : Prop := INT_MIN <= z <= INT_MAX.

(** [errno.h] on Linux. *)
Definition EINVAL : Z := 22.
Definition ENOENT : Z := 2.
Definition ENOSPC : Z := 28.
Definition EIO : Z := 5.
Definition ECANCELED : Z := 125.

Definition ascii_eqb (a b : ascii) : bool := Ascii.eqb a b.

(** Modelled from the spec: [strstart] lives in cutils.c, which is not
    among the sources.  The spec's descriptor syntax
    [<driver-prefix>:[<format>:]<target-path>] with "missing prefix ->
    invalid-argument failure" fixes what the driver needs: [strstart str
    val] tells whether [str] begins with [val] and, if so, yields the rest
    of [str] (the C function stores it through its third argument). *)
Fixpoint strstart (str val : string) {struct val} : option string :=
  match val with
  | EmptyString => Some str
  | String q val' =>
      match str with
      | EmptyString => None
      | String p str' => if ascii_eqb p q then strstart str' val' else None
      end
  end.

(** [strchr s c]: the offset of the first [c] in [s] ([filename2 -
    filename] in the source), or [None] for the null pointer. *)
Fixpoint strchr (s : string) (c : ascii) : option nat :=
  match s with
  | EmptyString => None
  | String a s' => if ascii_eqb a c then Some O else S <$> strchr s' c
  end.

(** [s + n] on a C string. *)
Fixpoint str_skip (n : nat) (s : string) : string :=
  match n, s with
  | O, _ => s
  | S n', String _ s' => str_skip n' s'
  | S _, EmptyString => EmptyString
  end.

(** [s[n] = 0] on a private copy of [s]. *)
Fixpoint str_truncate (n : nat) (s : string) : string :=
  match n, s with
  | O, _ => EmptyString
  | S n', String a s' => String a (str_truncate n' s')
  | S _, EmptyString => EmptyString
  end.

(** Modelled from the spec: [pstrcpy] lives in cutils.c, which is not among
    the sources.  The spec says the new path and format are "recorded as
    the mirror's own reported backing metadata"; the destination is a
    character array of [buf_size] bytes ([sizeof] on the field), so the
    copy keeps at most [buf_size - 1] characters and leaves the buffer
    alone when [buf_size <= 0]. *)
Definition pstrcpy (buf : string) (buf_size : Z) (str : string) : string :=
  if buf_size <=? 0 then buf else str_truncate (Z.to_nat (buf_size - 1)) str.

Definition colon : ascii := ":"%char.

(** ** The store of block devices *)

(** A [BlockDriverState *] is an address; [None] is the null pointer. *)
Definition addr := positive.

Record BlockDriver := { format_name : string }.

(** The fields of [BlockDriverState] the driver reads or writes; [drv] and
    [filename] are what the generic [bdrv_open] fills in. *)
Record BlockDriverState := mkBDS {
  file : option addr;
  backing_hd : option addr;
  opaque : option addr;
  keep_read_only : bool;
  backing_file : string;
  backing_format : string;
  drv : option BlockDriver;
  filename : string;
  open_flags : Z
}.

Definition set_file (v : option addr) (b : BlockDriverState) :=
  mkBDS v (backing_hd b) (opaque b) (keep_read_only b) (backing_file b)
        (backing_format b) (drv b) (filename b) (open_flags b).
Definition set_backing_hd (v : option addr) (b : BlockDriverState) :=
  mkBDS (file b) v (opaque b) (keep_read_only b) (backing_file b)
        (backing_format b) (drv b) (filename b) (open_flags b).
Definition set_opaque (v : option addr) (b : BlockDriverState) :=
  mkBDS (file b) (backing_hd b) v (keep_read_only b) (backing_file b)
        (backing_format b) (drv b) (filename b) (open_flags b).
Definition set_keep_read_only (v : bool) (b : BlockDriverState) :=
  mkBDS (file b) (backing_hd b) (opaque b) v (backing_file b)
        (backing_format b) (drv b) (filename b) (open_flags b).
Definition set_backing_file (v : string) (b : BlockDriverState) :=
  mkBDS (file b) (backing_hd b) (opaque b) (keep_read_only b) v
        (backing_format b) (drv b) (filename b) (open_flags b).
Definition set_backing_format (v : string) (b : BlockDriverState) :=
  mkBDS (file b) (backing_hd b) (opaque b) (keep_read_only b) (backing_file b)
        v (drv b) (filename b) (open_flags b).

(** What [g_malloc0] hands to [bdrv_new]. *)
Definition bds_zero : BlockDriverState :=
  mkBDS None None None false EmptyString EmptyString None EmptyString 0.

(** A request handle ([BlockDriverAIOCB *]) of the generic layer. *)
Definition handle := nat.

(** The caller's completion function and its context pointer. *)
Definition BlockDriverCompletionFunc := nat.
Definition context := Z.
Definition QEMUIOVector := list Byte.byte.

(** Calls into the generic block layer, with the status each returned. *)
Inductive bdrv_call :=
| CallNew (dev : addr)
| CallOpen (dev : addr) (name : string) (flags : Z) (d : option BlockDriver) (ret : Z)
| CallDelete (dev : addr)
| CallFlush (dev : addr) (ret : Z)
| CallGetLength (dev : addr) (ret : Z)
| CallIsAllocated (dev : addr) (sector_num nb_sectors : Z) (ret pnum : Z)
| CallReadv (dev : addr) (sector_num : Z) (qiov : QEMUIOVector) (nb_sectors : Z)
            (cb : BlockDriverCompletionFunc) (ctx : context) (h : handle)
| CallWritev (dev : addr) (sector_num : Z) (qiov : QEMUIOVector) (nb_sectors : Z)
             (h : handle)
| CallDiscard (dev : addr) (sector_num nb_sectors : Z) (h : handle)
| CallChangeBackingFile (dev : addr) (path fmt : option string) (ret : Z)
| CallCancel (h : handle).

(** The device a call addresses. *)
Definition call_dev (c : bdrv_call) : option addr :=
  match c with
  | CallNew d | CallOpen d _ _ _ _ | CallDelete d | CallFlush d _
  | CallGetLength d _ | CallIsAllocated d _ _ _ _
  | CallReadv d _ _ _ _ _ _ | CallWritev d _ _ _ _ | CallDiscard d _ _ _
  | CallChangeBackingFile d _ _ _ => Some d
  | CallCancel _ => None
  end.

(** [qerror_report(QERR_INVALID_PARAMETER_VALUE, name, expected)]. *)
Inductive qerror :=
| QERR_INVALID_PARAMETER_VALUE (name expected : string).

Record World := mkWorld {
  heap : gmap addr BlockDriverState;
  calls : list bdrv_call;
  qerrors : list qerror
}.

(** ** The monad of the driver's functions

    A computation reads and updates the world; [None] is a crash (a null or
    dangling pointer dereferenced). *)
Definition Blk (A : Type) : Type := World → option (A * World).

#[export] Instance blk_ret : MRet Blk := λ A a w, Some (a, w).
#[export] Instance blk_bind : MBind Blk := λ A B f m w,
  match m w with
  | Some (a, w') => f a w'
  | None => None
  end.

Definition crash {A} : Blk A := λ _, None.

(** [*p] *)
Definition deref (p : option addr) : Blk BlockDriverState := λ w,
  match p with
  | Some a => match heap w !! a with Some b => Some (b, w) | None => None end
  | None => None
  end.

(** [p->field = v], as an update [f] of the object. *)
Definition assign (p : option addr) (f : BlockDriverState → BlockDriverState)
  : Blk unit := λ w,
  match p with
  | Some a =>
      match heap w !! a with
      | Some b => Some (tt, mkWorld (<[a := f b]> (heap w)) (calls w) (qerrors w))
      | None => None
      end
  | None => None
  end.

Definition log_call (c : bdrv_call) : Blk unit := λ w,
  Some (tt, mkWorld (heap w) (calls w ++ [c]) (qerrors w)).

(** Modelled from the spec: [qerror_report] is defined outside the sources;
    the spec's "invalid-parameter failure naming the offending option" is
    the record it leaves. *)
Definition qerror_report (e : qerror) : Blk unit := λ w,
  Some (tt, mkWorld (heap w) (calls w) (qerrors w ++ [e])).

Definition release_dev (a : addr) : Blk unit := λ w,
  Some (tt, mkWorld (delete a (heap w)) (calls w) (qerrors w)).

(** A null pointer passed where the callee dereferences it. *)
Definition nonnull (p : option addr) : Blk addr := λ w,
  match p with
  | Some a => Some (a, w)
  | None => None
  end.

(** The handle of a request is its position in the log of calls. *)
Definition next_handle : Blk handle := λ w, Some (length (calls w), w).

(** The next free address of the store. *)
Definition fresh_addr (w : World) : addr := fresh (dom (heap w)).

(** ** The generic block layer

    block.c is not among the sources.  What the driver's behaviour depends
    on but does not decide (which formats are whitelisted, whether an open
    or a backing-file change succeeds, what a flush returns, the flag bits,
    the sizes of the two metadata buffers) is a field of [BlockLayer]; every
    statement below holds for all of them.  An operation on a device reads
    and rewrites that device only. *)
Record BlockLayer := {
  bdrv_find_whitelisted_format : string → option BlockDriver;
  BDRV_O_NO_BACKING : Z;
  BDRV_O_NO_FLUSH : Z;
  BDRV_O_CACHE_WB : Z;
  (** [sizeof(bs->backing_file)], [sizeof(bs->backing_format)] *)
  backing_file_size : Z;
  backing_format_size : Z;
  do_open : string → Z → option BlockDriver → BlockDriverState → Z * BlockDriverState;
  do_flush : addr → BlockDriverState → Z;
  do_getlength : addr → BlockDriverState → Z;
  do_is_allocated : addr → BlockDriverState → Z → Z → Z * Z;
  do_change_backing_file :
    addr → BlockDriverState → option string → option string → Z * BlockDriverState
}.

Section Driver.

Context (L : BlockLayer).

(** [bdrv_new("")]: a zeroed device at a fresh address. *)
Definition bdrv_new : Blk addr := λ w,
  let a := fresh_addr w in
  Some (a, mkWorld (<[a := bds_zero]> (heap w)) (calls w ++ [CallNew a]) (qerrors w)).

Definition bdrv_open (dev : option addr) (name : string) (flags : Z)
    (d : option BlockDriver) : Blk Z :=
  a ← nonnull dev;
  b ← deref dev;
  let r := do_open L name flags d b in
  assign dev (λ _, r.2);;
  log_call (CallOpen a name flags d r.1);;
  mret r.1.

(** Modelled from the spec: [bdrv_delete] is the generic layer's; for the
    spec, close "destroys (frees) the opaque source device". *)
Definition bdrv_delete (dev : option addr) : Blk unit :=
  a ← nonnull dev;
  b ← deref dev;
  release_dev a;;
  log_call (CallDelete a).

Definition bdrv_co_flush (dev : option addr) : Blk Z :=
  a ← nonnull dev;
  b ← deref dev;
  let ret := do_flush L a b in
  log_call (CallFlush a ret);;
  mret ret.

Definition bdrv_getlength (dev : option addr) : Blk Z :=
  a ← nonnull dev;
  b ← deref dev;
  let ret := do_getlength L a b in
  log_call (CallGetLength a ret);;
  mret ret.

(** The C function stores the second component through [pnum]. *)
Definition bdrv_is_allocated (dev : option addr) (sector_num nb_sectors : Z)
  : Blk (Z * Z) :=
  a ← nonnull dev;
  b ← deref dev;
  let r := do_is_allocated L a b sector_num nb_sectors in
  log_call (CallIsAllocated a sector_num nb_sectors r.1 r.2);;
  mret r.

Definition bdrv_aio_readv (dev : option addr) (sector_num : Z) (qiov : QEMUIOVector)
    (nb_sectors : Z) (cb : BlockDriverCompletionFunc) (ctx : context)
  : Blk handle :=
  a ← nonnull dev;
  b ← deref dev;
  h ← next_handle;
  log_call (CallReadv a sector_num qiov nb_sectors cb ctx h);;
  mret h.

Definition bdrv_change_backing_file (dev : option addr)
    (path fmt : option string) : Blk Z :=
  a ← nonnull dev;
  b ← deref dev;
  let r := do_change_backing_file L a b path fmt in
  assign dev (λ _, r.2);;
  log_call (CallChangeBackingFile a path fmt r.1);;
  mret r.1.

(** ** The driver *)

(** The tail of [blkmirror_open] from [bs->file = bdrv_new("")] on.  Both
    exits pass [out:], where only the private copy of the format name is
    freed; [ret] is returned as the open left it. *)
Definition blkmirror_open_target (bs : addr) (filename2 : string) (flags : Z)
    (d : option BlockDriver) : Blk Z :=
  f ← bdrv_new;
  assign (Some bs) (set_file (Some f));;
  m ← deref (Some bs);
  ret ← bdrv_open (file m) filename2
          (Z.lor (Z.lor (Z.lor flags (BDRV_O_NO_BACKING L)) (BDRV_O_NO_FLUSH L))
                 (BDRV_O_CACHE_WB L)) d;
  if ret <? 0 then mret ret else mret ret.

Definition blkmirror_open (bs : addr) (name : string) (flags : Z) : Blk Z :=
  (* Parse the blkmirror: prefix *)
  match strstart name "blkmirror:" with
  | None => mret (- EINVAL)
  | Some name =>
      match strchr name colon with
      | Some off =>
          let format := str_truncate off name in
          let filename2 := str_skip (S off) name in
          match bdrv_find_whitelisted_format L format with
          | None =>
              qerror_report (QERR_INVALID_PARAMETER_VALUE "format" "a supported format");;
              mret (- EINVAL)
          | Some d => blkmirror_open_target bs filename2 flags (Some d)
          end
      | None => blkmirror_open_target bs name flags None
      end
  end.

Definition blkmirror_rebind (bs : addr) : Blk unit :=
  m ← deref (Some bs);
  let source := backing_hd m in
  (* Do not store the source in backing_hd.  Store the source's backing
     file instead. *)
  m ← deref (Some bs);
  assign (Some bs) (set_opaque (backing_hd m));;
  s ← deref source;
  assign (Some bs) (set_backing_hd (backing_hd s));;
  (* Forbid committing to the backing file. *)
  m ← deref (Some bs);
  (if backing_hd m is Some _
   then assign (backing_hd m) (set_keep_read_only true)
   else mret ());;
  (* That is also the target's backing file. *)
  m ← deref (Some bs);
  s ← deref source;
  assign (file m) (set_backing_hd (backing_hd s)).

Definition blkmirror_close (bs : addr) : Blk unit :=
  m ← deref (Some bs);
  let source := opaque m in
  assign source (set_backing_hd None);;
  m ← deref (Some bs);
  assign (file m) (set_backing_hd None);;
  (* backing_hd and file closed by the caller. *)
  bdrv_delete source.

Definition blkmirror_co_flush (bs : addr) : Blk Z :=
  m ← deref (Some bs);
  let source := opaque m in
  bdrv_co_flush source.

Definition blkmirror_getlength (bs : addr) : Blk Z :=
  m ← deref (Some bs);
  bdrv_getlength (file m).

Definition blkmirror_co_is_allocated (bs : addr) (sector_num nb_sectors : Z)
  : Blk (Z * Z) :=
  m ← deref (Some bs);
  bdrv_is_allocated (file m) sector_num nb_sectors.

Definition blkmirror_aio_readv (bs : addr) (sector_num : Z) (qiov : QEMUIOVector)
    (nb_sectors : Z) (cb : BlockDriverCompletionFunc) (ctx : context)
  : Blk handle :=
  m ← deref (Some bs);
  let source := opaque m in
  bdrv_aio_readv source sector_num qiov nb_sectors cb ctx.

(** [x ?: ""] *)
Definition or_empty (x : option string) : string := default EmptyString x.

Definition blkmirror_change_backing_file (bs : addr)
    (backing_file' backing_fmt : option string) : Blk Z :=
  m ← deref (Some bs);
  let source := opaque m in
  (* Our backing file has changed, change the source and the target's too. *)
  m ← deref (Some bs);
  assign source (set_backing_hd (backing_hd m));;
  m ← deref (Some bs);
  s ← deref source;
  assign (file m) (set_backing_hd (backing_hd s));;
  (* First change the backing file on the target. *)
  m ← deref (Some bs);
  ret ← bdrv_change_backing_file (file m) backing_file' backing_fmt;
  if ret <? 0 then mret ret else
  ret ← bdrv_change_backing_file source backing_file' backing_fmt;
  if ret <? 0 then mret ret else
  m ← deref (Some bs);
  assign (Some bs)
    (set_backing_file
       (pstrcpy (backing_file m) (backing_file_size L) (or_empty backing_file')));;
  m ← deref (Some bs);
  assign (Some bs)
    (set_backing_format
       (pstrcpy (backing_format m) (backing_format_size L) (or_empty backing_fmt)));;
  mret 0.

End Driver.

(** ** The completion combinator *)

(** An index into [aios[2]]: slot 0 is the source's sub-request, slot 1 the
    target's. *)
Inductive slot := Slot0 | Slot1.

#[export] Instance slot_eq_dec : EqDecision slot.
Proof. solve_decision. Defined.

Definition slot_eqb (a b : slot) : bool := bool_decide (a = b).

(** The header every request starts with; [qemu_aio_get] fills it in. *)
Record BlockDriverAIOCB := mkACB {
  acb_bs : addr;
  acb_cb : BlockDriverCompletionFunc;
  acb_opaque : context
}.

(** [parent] points at the enclosing [DupAIOCB], which is identified by the
    handle of its [common] header. *)
Record SingleAIOCB := mkSingle {
  aiocb : option handle;
  parent : option handle
}.

Record DupAIOCB := mkDup {
  common : BlockDriverAIOCB;
  count : Z;
  canceled : bool;
  cb : option BlockDriverCompletionFunc;
  aios0 : SingleAIOCB;
  aios1 : SingleAIOCB;
  ret : Z
}.

Definition aios (d : DupAIOCB) (s : slot) : SingleAIOCB :=
  match s with Slot0 => aios0 d | Slot1 => aios1 d end.

Definition set_aios (s : slot) (f : SingleAIOCB → SingleAIOCB) (d : DupAIOCB) :=
  match s with
  | Slot0 => mkDup (common d) (count d) (canceled d) (cb d) (f (aios0 d)) (aios1 d) (ret d)
  | Slot1 => mkDup (common d) (count d) (canceled d) (cb d) (aios0 d) (f (aios1 d)) (ret d)
  end.
Definition set_aiocb (v : option handle) (x : SingleAIOCB) := mkSingle v (parent x).
Definition set_parent (v : option handle) (x : SingleAIOCB) := mkSingle (aiocb x) v.
Definition set_common (v : BlockDriverAIOCB) (d : DupAIOCB) :=
  mkDup v (count d) (canceled d) (cb d) (aios0 d) (aios1 d) (ret d).
Definition set_count (v : Z) (d : DupAIOCB) :=
  mkDup (common d) v (canceled d) (cb d) (aios0 d) (aios1 d) (ret d).
Definition set_canceled (v : bool) (d : DupAIOCB) :=
  mkDup (common d) (count d) v (cb d) (aios0 d) (aios1 d) (ret d).
Definition set_ret (v : Z) (d : DupAIOCB) :=
  mkDup (common d) (count d) (canceled d) (cb d) (aios0 d) (aios1 d) v.

(** The world of one mirrored request: the record, and around it what the
    code cannot see but the properties speak of. *)
Record AioWorld := mkAio {
  (** the address of the record, the handle the caller holds *)
  dcb_at : handle;
  dcb : DupAIOCB;
  (** backend side: the sub-requests that still owe their completion *)
  in_flight0 : bool;
  in_flight1 : bool;
  (** the completions the backends have delivered, oldest first *)
  completions : list (slot * Z);
  (** the invocations of the caller's completion function, oldest first *)
  delivered : list (BlockDriverCompletionFunc * context * Z);
  (** how often [qemu_aio_release] ran on the record *)
  released : nat;
  aio_calls : list bdrv_call
}.

Definition in_flight (w : AioWorld) (s : slot) : bool :=
  match s with Slot0 => in_flight0 w | Slot1 => in_flight1 w end.

Definition with_dcb (d : DupAIOCB) (w : AioWorld) :=
  mkAio (dcb_at w) d (in_flight0 w) (in_flight1 w) (completions w) (delivered w)
        (released w) (aio_calls w).
Definition set_in_flight (s : slot) (v : bool) (w : AioWorld) :=
  match s with
  | Slot0 => mkAio (dcb_at w) (dcb w) v (in_flight1 w) (completions w) (delivered w)
                   (released w) (aio_calls w)
  | Slot1 => mkAio (dcb_at w) (dcb w) (in_flight0 w) v (completions w) (delivered w)
                   (released w) (aio_calls w)
  end.
Definition record_completion (c : slot * Z) (w : AioWorld) :=
  mkAio (dcb_at w) (dcb w) (in_flight0 w) (in_flight1 w) (completions w ++ [c])
        (delivered w) (released w) (aio_calls w).
Definition log_aio_call (c : bdrv_call) (w : AioWorld) :=
  mkAio (dcb_at w) (dcb w) (in_flight0 w) (in_flight1 w) (completions w) (delivered w)
        (released w) (aio_calls w ++ [c]).

(** [dcb->common.cb(dcb->common.opaque, ret)] *)
Definition call_common_cb (w : AioWorld) : AioWorld :=
  mkAio (dcb_at w) (dcb w) (in_flight0 w) (in_flight1 w) (completions w)
        (delivered w ++ [(acb_cb (common (dcb w)), acb_opaque (common (dcb w)), ret (dcb w))])
        (released w) (aio_calls w).

(** Modelled from the spec: [qemu_aio_release] is the generic layer's; the
    spec's "release counter" of the record is what it advances.  The record
    goes back to its pool and stays readable; the model follows this one
    request and does not hand the record out again. *)
Definition qemu_aio_release (w : AioWorld) : AioWorld :=
  mkAio (dcb_at w) (dcb w) (in_flight0 w) (in_flight1 w) (completions w) (delivered w)
        (S (released w)) (aio_calls w).

(** How a run of driver code ends. *)
Inductive outcome :=
| Ok (w : AioWorld)
| AssertFailed      (* [assert] aborted the process *)
| Fault             (* a null or foreign pointer was dereferenced *)
| Misuse.           (* the caller broke the contract of the handle *)

Definition and_then (o : outcome) (k : AioWorld → outcome) : outcome :=
  match o with
  | Ok w => k w
  | other => other
  end.

Definition blkmirror_aio_cb (s : slot) (r : Z) (w : AioWorld) : outcome :=
  (* SingleAIOCB *scb = opaque; DupAIOCB *dcb = scb->parent; *)
  match parent (aios (dcb w) s) with
  | None => Fault
  | Some p =>
      if negb (Nat.eqb p (dcb_at w)) then Fault else
      let w := with_dcb (set_aios s (set_aiocb None) (dcb w)) w in
      if negb (0 <? count (dcb w)) then AssertFailed else
      let w :=
        if (r <? 0) && (ret (dcb w) =? 0)
        then with_dcb (set_ret r (dcb w)) w
        else w in
      let w := with_dcb (set_count (int_wrap (count (dcb w) - 1)) (dcb w)) w in
      if count (dcb w) =? 0 then
        let w := call_common_cb w in
        if negb (canceled (dcb w)) then Ok (qemu_aio_release w) else Ok w
      else Ok w
  end.

(** Modelled from the spec: the backends' side of the contract, "each slot's
    completion path" is driven once per sub-operation.  A backend completes
    slot [s] with result [r] only while it has that sub-request in flight;
    it then runs the callback it was given, [blkmirror_aio_cb], on
    [&dcb->aios[s]]. *)
Definition backend_complete (s : slot) (r : Z) (w : AioWorld) : outcome :=
  if in_flight w s
  then blkmirror_aio_cb s r (record_completion (s, r) (set_in_flight s false w))
  else Ok w.

Fixpoint backend_complete_all (k : list (slot * Z)) (w : AioWorld) : outcome :=
  match k with
  | [] => Ok w
  | (s, r) :: k' => and_then (backend_complete s r w) (backend_complete_all k')
  end.

(** Modelled from the spec: [bdrv_aio_cancel] "synchronously or
    asynchronously drives that slot's completion path"; [sync] lists the
    completions the backends deliver before the call returns (none, the
    cancelled one, or, as when the layer drains all requests, both). *)
Definition bdrv_aio_cancel (h : handle) (sync : list (slot * Z)) (w : AioWorld)
  : outcome :=
  backend_complete_all sync (log_aio_call (CallCancel h) w).

(** One turn of the loop of [dup_aio_cancel]. *)
Definition dup_aio_cancel_slot (i : slot) (sync : list (slot * Z)) (w : AioWorld)
  : outcome :=
  match aiocb (aios (dcb w) i) with
  | Some h => bdrv_aio_cancel h sync w
  | None => Ok w
  end.

Definition dup_aio_cancel (sync0 sync1 : list (slot * Z)) (w : AioWorld) : outcome :=
  let w := with_dcb (set_canceled true (dcb w)) w in
  and_then (dup_aio_cancel_slot Slot0 sync0 w) (λ w,
  and_then (dup_aio_cancel_slot Slot1 sync1 w) (λ w,
  Ok (qemu_aio_release w))).

(** Modelled from the spec: [qemu_aio_get] is the generic layer's.  It
    takes a record from the pool ([old], with whatever an earlier request
    left in it) and fills in the header. *)
Definition qemu_aio_get (old : DupAIOCB) (bs : addr) (f : BlockDriverCompletionFunc)
    (ctx : context) : DupAIOCB :=
  set_common (mkACB bs f ctx) old.

Definition dup_aio_get (old : DupAIOCB) (at_ : handle) (bs : addr)
    (f : BlockDriverCompletionFunc) (ctx : context) : DupAIOCB :=
  let d := qemu_aio_get old bs f ctx in
  let d := set_canceled false d in
  let d := set_aios Slot0 (set_parent (Some at_)) d in
  let d := set_aios Slot1 (set_parent (Some at_)) d in
  let d := set_count 2 d in
  set_ret 0 d.

(** A sub-request handed to a backend: logged, in flight from now on, its
    handle returned.  The callback is [blkmirror_aio_cb] on [&dcb->aios[s]]
    in every call the driver makes. *)
Definition bdrv_aio_submit (c : handle → bdrv_call) (s : slot) (w : AioWorld)
  : handle * AioWorld :=
  let h := length (aio_calls w) in
  (h, set_in_flight s true (log_aio_call (c h) w)).

Definition store_aiocb (s : slot) (r : handle * AioWorld) : AioWorld :=
  with_dcb (set_aios s (set_aiocb (Some r.1)) (dcb r.2)) r.2.

(** The request before any sub-request is submitted. *)
Definition aio_start (d : DupAIOCB) (at_ : handle) : AioWorld :=
  mkAio at_ d false false [] [] O [].

Definition blkmirror_aio_writev (w : World) (old : DupAIOCB) (at_ : handle)
    (bs : addr) (sector_num : Z) (qiov : QEMUIOVector) (nb_sectors : Z)
    (f : BlockDriverCompletionFunc) (ctx : context) : option AioWorld :=
  m ← heap w !! bs;
  source ← opaque m;
  _ ← heap w !! source;
  let a := aio_start (dup_aio_get old at_ bs f ctx) at_ in
  let a := store_aiocb Slot0
             (bdrv_aio_submit (CallWritev source sector_num qiov nb_sectors) Slot0 a) in
  target ← file m;
  _ ← heap w !! target;
  let a := store_aiocb Slot1
             (bdrv_aio_submit (CallWritev target sector_num qiov nb_sectors) Slot1 a) in
  Some a.

Definition blkmirror_aio_discard (w : World) (old : DupAIOCB) (at_ : handle)
    (bs : addr) (sector_num nb_sectors : Z)
    (f : BlockDriverCompletionFunc) (ctx : context) : option AioWorld :=
  m ← heap w !! bs;
  source ← opaque m;
  _ ← heap w !! source;
  let a := aio_start (dup_aio_get old at_ bs f ctx) at_ in
  let a := store_aiocb Slot0
             (bdrv_aio_submit (CallDiscard source sector_num nb_sectors) Slot0 a) in
  target ← file m;
  _ ← heap w !! target;
  let a := store_aiocb Slot1
             (bdrv_aio_submit (CallDiscard target sector_num nb_sectors) Slot1 a) in
  Some a.

(** ** The environment of a request

    After the request is issued, the backends complete sub-requests and the
    caller may cancel.  The caller holds a valid handle only until its
    completion function has run, and cancels at most once. *)
Inductive event :=
| Complete (s : slot) (r : Z)
| Cancel (sync0 sync1 : list (slot * Z)).

Definition cancellable (w : AioWorld) : bool :=
  match delivered w with
  | [] => negb (canceled (dcb w))
  | _ => false
  end.

Definition step (e : event) (w : AioWorld) : outcome :=
  match e with
  | Complete s r => backend_complete s r w
  | Cancel sync0 sync1 =>
      if cancellable w then dup_aio_cancel sync0 sync1 w else Misuse
  end.

Fixpoint run (t : list event) (w : AioWorld) : outcome :=
  match t with
  | [] => Ok w
  | e :: t' => and_then (step e w) (run t')
  end.

(** [w] is a request just issued through the facade, a write or a discard,
    with completion function [f] and context [ctx]. *)
Definition issued (f : BlockDriverCompletionFunc) (ctx : context) (w : AioWorld)
  : Prop :=
  (∃ bw old at_ bs sector_num qiov nb_sectors,
     blkmirror_aio_writev bw old at_ bs sector_num qiov nb_sectors f ctx = Some w)
  ∨ (∃ bw old at_ bs sector_num nb_sectors,
     blkmirror_aio_discard bw old at_ bs sector_num nb_sectors f ctx = Some w).

(** The merged status the spec describes: the first failing result in
    completion order, success when none failed. *)
Fixpoint first_error (rs : list Z) : Z :=
  match rs with
  | [] => 0
  | r :: rs' => if r <? 0 then r else first_error rs'
  end.

(** How many sub-requests are still in flight. *)
Definition outstanding (w : AioWorld) : Z :=
  Z.b2z (in_flight0 w) + Z.b2z (in_flight1 w).

(** ** Statements: what the properties speak of *)

(** *** The store *)

Definition field {A} (f : BlockDriverState → A) (w : World) (a : addr) : option A :=
  f <$> heap w !! a.

(** The flags the target is opened with. *)
Definition target_flags (L : BlockLayer) (flags : Z) : Z :=
  Z.lor (Z.lor (Z.lor flags (BDRV_O_NO_BACKING L)) (BDRV_O_NO_FLUSH L))
        (BDRV_O_CACHE_WB L).

(** The target path and driver a descriptor names: the text after the
    prefix is [<format>:<path>] with a whitelisted format, or a path
    without any colon. *)
Definition descriptor_target (L : BlockLayer) (name filename2 : string)
    (d : option BlockDriver) : Prop :=
  (∃ fmt d0, name = "blkmirror:" +:+ fmt +:+ String colon filename2
             ∧ strchr fmt colon = None
             ∧ bdrv_find_whitelisted_format L fmt = Some d0 ∧ d = Some d0)
  ∨ (name = "blkmirror:" +:+ filename2 ∧ strchr filename2 colon = None ∧ d = None).

(** *** A mirrored request *)

(** The state [blkmirror_aio_cb] leaves when it runs to its end. *)
Definition cb_result (s : slot) (r : Z) (w : AioWorld) : AioWorld :=
  let d := dcb w in
  let d' :=
    mkDup (common d) (count d - 1) (canceled d) (cb d)
          (if s is Slot0 then set_aiocb None (aios0 d) else aios0 d)
          (if s is Slot1 then set_aiocb None (aios1 d) else aios1 d)
          (if (r <? 0) && (ret d =? 0) then r else ret d) in
  let w' := with_dcb d' w in
  if count d - 1 =? 0
  then (if canceled d then call_common_cb w' else qemu_aio_release (call_common_cb w'))
  else w'.

(** The completions so far, against the sub-requests still in flight. *)
Definition shape (w : AioWorld) : Prop :=
  match in_flight0 w, in_flight1 w with
  | true, true => completions w = []
  | false, true => ∃ r, completions w = [(Slot0, r)]
  | true, false => ∃ r, completions w = [(Slot1, r)]
  | false, false =>
      ∃ s1 r1 s2 r2, s1 ≠ s2 ∧ completions w = [(s1, r1); (s2, r2)]
  end.

(** What every state of a request satisfies, whatever the cancel flag and
    the release counter are; [c] is the header the request was issued
    with. *)
Definition Inv_core (c : BlockDriverAIOCB) (w : AioWorld) : Prop :=
  common (dcb w) = c
  ∧ (∀ s, parent (aios (dcb w) s) = Some (dcb_at w))
  ∧ count (dcb w) = outstanding w
  ∧ (∀ s, in_flight w s = false → aiocb (aios (dcb w) s) = None)
  ∧ shape w
  ∧ ret (dcb w) = first_error (completions w).*2
  ∧ delivered w =
      if outstanding w =? 0
      then [(acb_cb c, acb_opaque c, ret (dcb w))]
      else [].

(** The releases a state has earned. *)
Definition release_due (w : AioWorld) : nat :=
  if canceled (dcb w) then 1%nat
  else if outstanding w =? 0 then 1%nat else 0%nat.

(** The release the callback performs on reaching the state. *)
Definition release_earned (w : AioWorld) : nat :=
  if canceled (dcb w) then 0%nat
  else if outstanding w =? 0 then 1%nat else 0%nat.

Definition Inv (c : BlockDriverAIOCB) (w : AioWorld) : Prop :=
  Inv_core c w ∧ released w = release_due w.

(** The handles the record holds, slot 0 first. *)
Definition held (w : AioWorld) : list handle :=
  option_list (aiocb (aios (dcb w) Slot0)) ++ option_list (aiocb (aios (dcb w) Slot1)).

(** No sub-request is in flight any more: each backend has completed
    its own. *)
Definition idle (w : AioWorld) : Prop :=
  in_flight w Slot0 = false ∧ in_flight w Slot1 = false.

(** The loop of [dup_aio_cancel], both turns, on the record as the first
    statement of the function has flagged it. *)
Definition dup_aio_cancel_loop (sync0 sync1 : list (slot * Z)) (w : AioWorld)
  : outcome :=
  and_then (dup_aio_cancel_slot Slot0 sync0 (with_dcb (set_canceled true (dcb w)) w))
           (dup_aio_cancel_slot Slot1 sync1).

(** *** Concrete worlds, on which the statements are run *)

(** A block layer to run examples on: "raw" and "qcow2" are whitelisted;
    opening "/missing" fails; changing the backing file to "/fail-target"
    fails on device 3 and to "/fail-source" on device 2. *)
Definition demo_layer : BlockLayer := {|
  bdrv_find_whitelisted_format := λ s,
    if (String.eqb s "raw" || String.eqb s "qcow2")%bool
    then Some {| format_name := s |} else None;
  BDRV_O_NO_BACKING := 256;
  BDRV_O_NO_FLUSH := 512;
  BDRV_O_CACHE_WB := 64;
  backing_file_size := 1024;
  backing_format_size := 16;
  do_open := λ name flags d b,
    if String.eqb name "/missing" then (- ENOENT, b)
    else (0, mkBDS (file b) (backing_hd b) (opaque b) (keep_read_only b)
                   (backing_file b) (backing_format b) d name flags);
  do_flush := λ _ _, 0;
  do_getlength := λ _ b, Z.of_nat (String.length (filename b)) * 512;
  do_is_allocated := λ _ _ _ n, (1, n);
  do_change_backing_file := λ a b path fmt,
    if (Pos.eqb a 3 && String.eqb (or_empty path) "/fail-target")%bool
    then (- ENOSPC, b)
    else if (Pos.eqb a 2 && String.eqb (or_empty path) "/fail-source")%bool
    then (- EIO, b)
    else (0, set_backing_format (or_empty fmt) (set_backing_file (or_empty path) b))
|}.

(** A world with one unopened mirror device. *)
Definition demo_fresh : World := mkWorld {[ 1%positive := bds_zero ]} [] [].

(** A mirror before [blkmirror_rebind]: device 1 is the mirror with the
    source (2) in its nominal backing slot and the target (3) as its file;
    4 is the source's backing device. *)
Definition demo_appended : World :=
  mkWorld (<[1%positive := set_file (Some 3%positive)
                             (set_backing_hd (Some 2%positive) bds_zero)]>
           (<[2%positive := set_backing_hd (Some 4%positive) bds_zero]>
            (<[3%positive := bds_zero]> {[ 4%positive := bds_zero ]}))) [] [].

(** A concrete mirror: device 1 is the mirror, 2 its source (in the opaque
    slot), 3 its target, 4 the shared backing device. *)
Definition demo_mirror : BlockDriverState :=
  mkBDS (Some 3%positive) (Some 4%positive) (Some 2%positive) false
        "base.img" "raw" None "blkmirror:raw:/tmp/target.img" 0.

Definition demo_store : World :=
  mkWorld (<[1%positive := demo_mirror]>
           (<[2%positive := set_backing_hd (Some 4%positive) bds_zero]>
            (<[3%positive := set_backing_hd (Some 4%positive) bds_zero]>
             {[ 4%positive := set_keep_read_only true bds_zero ]}))) [] [].

(** A record as the pool may hand it out, with the leftovers of an earlier
    request. *)
Definition demo_stale : DupAIOCB :=
  mkDup (mkACB 9%positive 3%nat 0) 0 true None
        (mkSingle None (Some 5%nat)) (mkSingle None (Some 5%nat)) (- EIO).

Definition demo_request : AioWorld :=
  Eval vm_compute in
    default (aio_start demo_stale 0%nat)
      (blkmirror_aio_writev demo_store demo_stale 10%nat 1%positive 64 [] 8 7%nat 42).

(** The target fails with "no space", the source succeeds later. *)
Definition demo_trace : list event :=
  [Complete Slot1 (- ENOSPC); Complete Slot0 0].

(** The caller cancels after the target's completion; the source's backend
    completes the cancelled sub-request before the cancel call returns. *)
Definition demo_cancel_trace : list event :=
  [Complete Slot1 0; Cancel [(Slot0, - ECANCELED)] []].

Definition demo_final : AioWorld :=
  Eval vm_compute in
    match run demo_trace demo_request with Ok w => w | _ => demo_request end.

Definition demo_cancelled : AioWorld :=
  Eval vm_compute in
    match run demo_cancel_trace demo_request with Ok w => w | _ => demo_request end.

(** The request with the target's sub-request completed and the source's
    still in flight. *)
Definition demo_half_trace : list event := [Complete Slot1 0].

Definition demo_half : AioWorld :=
  Eval vm_compute in
    match run demo_half_trace demo_request with Ok w => w | _ => demo_request end.

(** *** The life of a mirror *)

(** Modelled from the spec: the attach step is [bdrv_append], which is not
    among the sources; it is "externally responsible for constructing the
    mirror with the source already set as its nominal backing device before
    rebind() runs". *)
Definition attach_source (bs src : addr) : Blk unit :=
  assign (Some bs) (set_backing_hd (Some src)).

(** The descriptor names a target: [blkmirror_open] will try to open it. *)
Definition accepted (L : BlockLayer) (name : string) : Prop :=
  ∃ filename2 d, descriptor_target L name filename2 d.

(** The target a descriptor names, computed as [blkmirror_open] parses
    it. *)
Definition descriptor_parse (L : BlockLayer) (name : string)
  : option (string * option BlockDriver) :=
  rest ← strstart name "blkmirror:";
  match strchr rest colon with
  | Some off =>
      d ← bdrv_find_whitelisted_format L (str_truncate off rest);
      Some (str_skip (S off) rest, Some d)
  | None => Some (rest, None)
  end.

(** Source, target and mirror refer to the same backing device. *)
Definition backing_aligned (w : World) (bs src tgt : addr) : Prop :=
  ∃ b, field backing_hd w bs = Some b
       ∧ field backing_hd w src = Some b
       ∧ field backing_hd w tgt = Some b.

(** The backends' change of the backing file rewrites image headers and
    leaves the devices' in-memory backing references alone. *)
Definition change_keeps_backing_hd (L : BlockLayer) : Prop :=
  ∀ a b path fmt,
    backing_hd (do_change_backing_file L a b path fmt).2 = backing_hd b.

(** Every sub-request in flight has its handle stored in its slot. *)
Definition handles_stored (w : AioWorld) : Prop :=
  ∀ s, in_flight w s = true → is_Some (aiocb (aios (dcb w) s)).

(** * The mutex-guarded counter of qemu-thread.c

    [atomic_inc_with_qemu_mutex] and [atomic_dec_and_qemu_mutex_lock] work
    on an [int] shared between threads and on a mutex.  Each function is
    embedded as the state machine of one call: a step is one access to the
    shared state (one atomic operation on the counter or one mutex
    operation), and threads interleave step by step.  The operations on the
    counter are sequentially consistent, as the barriers of
    [atomic_mb_read] and the full-barrier read-modify-write operations make
    them. *)

(** Threads are numbered. *)
Abbreviation tid := nat (only parsing).

Record Shared := mkShared {
  counter : Z;            (* [*x] *)
  mutex : option tid      (* the thread that holds [*mutex] *)
}.

(** ** The primitives of qemu/atomic.h and qemu/thread.h

    The headers are not among the sources.  The primitives are given the
    meaning their names document: [atomic_mb_read] a sequentially
    consistent load, [atomic_inc], [atomic_fetch_dec] and [atomic_cmpxchg]
    the atomic read-modify-write builtins, [qemu_mutex_lock] and
    [qemu_mutex_unlock] a non-recursive mutex.  QEMU is compiled with
    [-fwrapv]: [int] arithmetic wraps. *)
Definition atomic_mb_read (sh : Shared) : Z := counter sh.

Definition atomic_inc (sh : Shared) : Shared :=
  mkShared (int_wrap (counter sh + 1)) (mutex sh).

(** Returns the value before the decrement. *)
Definition atomic_fetch_dec (sh : Shared) : Z * Shared :=
  (counter sh, mkShared (int_wrap (counter sh - 1)) (mutex sh)).

(** Returns the value found; stores [new] if that value is [old]. *)
Definition atomic_cmpxchg (old new : Z) (sh : Shared) : Z * Shared :=
  (counter sh, if counter sh =? old then mkShared new (mutex sh) else sh).

(** [None]: the mutex is taken and the caller waits. *)
Definition qemu_mutex_lock (t : tid) (sh : Shared) : option Shared :=
  match mutex sh with
  | None => Some (mkShared (counter sh) (Some t))
  | Some _ => None
  end.

Definition qemu_mutex_unlock (sh : Shared) : Shared :=
  mkShared (counter sh) None.

(** ** The two functions, one shared access per step *)

(** Where a call of [atomic_inc_with_qemu_mutex] stands; [IncCas old] is
    about to try the compare-and-swap with the value [old] it read. *)
Inductive inc_pc :=
| IncRead | IncLock | IncAdd | IncUnlock | IncCas (old : Z) | IncReturn.

Definition atomic_inc_with_qemu_mutex (t : tid) (pc : inc_pc) (sh : Shared)
  : option (inc_pc * Shared) :=
  match pc with
  | IncRead =>
      let old := atomic_mb_read sh in
      Some (if old =? 0 then IncLock else IncCas old, sh)
  | IncLock => sh' ← qemu_mutex_lock t sh; Some (IncAdd, sh')
  | IncAdd => Some (IncUnlock, atomic_inc sh)
  | IncUnlock => Some (IncReturn, qemu_mutex_unlock sh)
  | IncCas old =>
      let r := atomic_cmpxchg old (int_wrap (old + 1)) sh in
      Some (if r.1 =? old then IncReturn else IncRead, r.2)
  | IncReturn => None
  end.

(** Where a call of [atomic_dec_and_qemu_mutex_lock] stands; [DecReturn b]
    has returned [b]. *)
Inductive dec_pc :=
| DecRead | DecLock | DecFetch | DecUnlock | DecCas (old : Z) | DecReturn (locked : bool).

Definition atomic_dec_and_qemu_mutex_lock (t : tid) (pc : dec_pc) (sh : Shared)
  : option (dec_pc * Shared) :=
  match pc with
  | DecRead =>
      let old := atomic_mb_read sh in
      Some (if old =? 1 then DecLock else DecCas old, sh)
  | DecLock => sh' ← qemu_mutex_lock t sh; Some (DecFetch, sh')
  | DecFetch =>
      let r := atomic_fetch_dec sh in
      Some (if r.1 =? 1 then DecReturn true else DecUnlock, r.2)
  | DecUnlock => Some (DecReturn false, qemu_mutex_unlock sh)
  | DecCas old =>
      let r := atomic_cmpxchg old (int_wrap (old - 1)) sh in
      Some (if r.1 =? old then DecReturn false else DecRead, r.2)
  | DecReturn _ => None
  end.

(** ** Threads and schedules *)

(** A thread makes one call. *)
Inductive thread := TInc (pc : inc_pc) | TDec (pc : dec_pc).

Definition thread_step (t : tid) (th : thread) (sh : Shared) : option (thread * Shared) :=
  match th with
  | TInc pc => '(pc', sh') ← atomic_inc_with_qemu_mutex t pc sh; Some (TInc pc', sh')
  | TDec pc => '(pc', sh') ← atomic_dec_and_qemu_mutex_lock t pc sh; Some (TDec pc', sh')
  end.

(** The threads, by thread id, and the shared state. *)
Definition config : Type := list thread * Shared.

(** Thread [i] is given the processor: it takes its next step, or nothing
    happens when it waits for the mutex, has returned, or does not exist. *)
Definition sched_step (i : tid) (c : config) : config :=
  match c.1 !! i with
  | Some th =>
      match thread_step i th c.2 with
      | Some (th', sh') => (<[i := th']> c.1, sh')
      | None => c
      end
  | None => c
  end.

(** A schedule names the thread that runs next, step after step. *)
Fixpoint run_sched (sched : list tid) (c : config) : config :=
  match sched with
  | [] => c
  | i :: sched' => run_sched sched' (sched_step i c)
  end.

(** A call not yet begun. *)
Definition initial (th : thread) : Prop := th = TInc IncRead ∨ th = TDec DecRead.

(** The thread is between taking the mutex and giving it back; a call of
    [atomic_dec_and_qemu_mutex_lock] that returned [true] has kept it. *)
Definition holds (th : thread) : bool :=
  match th with
  | TInc IncAdd | TInc IncUnlock => true
  | TDec DecFetch | TDec DecUnlock | TDec (DecReturn true) => true
  | _ => false
  end.

(** What the call has done to the counter so far. *)
Definition applied (th : thread) : Z :=
  match th with
  | TInc IncUnlock | TInc IncReturn => 1
  | TDec DecUnlock | TDec (DecReturn _) => -1
  | _ => 0
  end.

Fixpoint net (l : list thread) : Z :=
  match l with
  | [] => 0
  | th :: l' => applied th + net l'
  end.

Definition is_inc (th : thread) : Prop := ∃ pc, th = TInc pc.

(** A thread is between lock and unlock exactly when the mutex is its. *)
Definition mutex_ok (c : config) : Prop :=
  ∀ i th, c.1 !! i = Some th → (holds th = true ↔ mutex c.2 = Some i).

(** Every compare-and-swap of an increment is tried on a value that is
    not zero. *)
Definition cas_nonzero (c : config) : Prop :=
  ∀ j old, c.1 !! j = Some (TInc (IncCas old)) → old ≠ 0.

(** Three threads: one drops the last reference, two take a new one. *)
Definition demo_threads : list thread := [TDec DecRead; TInc IncRead; TInc IncRead].

(** One increment reads the counter; the decrement then runs and returns
    with the mutex; the increments go on and end up waiting for it. *)
Definition demo_schedule : list tid :=
  [1; 0; 0; 0; 1; 1; 2; 2; 2; 1; 2]%nat.

(** The steps a thread can take, one case per shared access. *)
Inductive step_of (t : tid) : thread → Shared → thread → Shared → Prop :=
| StIncRead sh :
    step_of t (TInc IncRead) sh
              (TInc (if counter sh =? 0 then IncLock else IncCas (counter sh))) sh
| StIncLock x :
    step_of t (TInc IncLock) (mkShared x None) (TInc IncAdd) (mkShared x (Some t))
| StIncAdd sh :
    step_of t (TInc IncAdd) sh (TInc IncUnlock) (mkShared (int_wrap (counter sh + 1)) (mutex sh))
| StIncUnlock sh :
    step_of t (TInc IncUnlock) sh (TInc IncReturn) (mkShared (counter sh) None)
| StIncCasOk sh :
    step_of t (TInc (IncCas (counter sh))) sh (TInc IncReturn)
              (mkShared (int_wrap (counter sh + 1)) (mutex sh))
| StIncCasFail old sh :
    counter sh ≠ old → step_of t (TInc (IncCas old)) sh (TInc IncRead) sh
| StDecRead sh :
    step_of t (TDec DecRead) sh
              (TDec (if counter sh =? 1 then DecLock else DecCas (counter sh))) sh
| StDecLock x :
    step_of t (TDec DecLock) (mkShared x None) (TDec DecFetch) (mkShared x (Some t))
| StDecFetch sh :
    step_of t (TDec DecFetch) sh
              (TDec (if counter sh =? 1 then DecReturn true else DecUnlock))
              (mkShared (int_wrap (counter sh - 1)) (mutex sh))
| StDecUnlock sh :
    step_of t (TDec DecUnlock) sh (TDec (DecReturn false)) (mkShared (counter sh) None)
| StDecCasOk sh :
    step_of t (TDec (DecCas (counter sh))) sh (TDec (DecReturn false))
              (mkShared (int_wrap (counter sh - 1)) (mutex sh))
| StDecCasFail old sh :
    counter sh ≠ old → step_of t (TDec (DecCas old)) sh (TDec DecRead) sh.

(** ** Further examples *)

(** A mirror whose backing slot the caller has just changed to device 5,
    source and target still referring to device 4. *)
Definition demo_rebased : World :=
  mkWorld (<[1%positive := set_backing_hd (Some 5%positive) demo_mirror]>
           (<[5%positive := bds_zero]> (heap demo_store))) [] [].

(** A fresh mirror (1) and a source (2) backed by device 4. *)
Definition demo_unopened : World :=
  mkWorld (<[1%positive := bds_zero]>
           (<[2%positive := set_backing_hd (Some 4%positive) bds_zero]>
            {[ 4%positive := bds_zero ]})) [] [].

(** Both sub-requests in flight; the caller cancels, and each backend
    completes its sub-request with "cancelled" on the way. *)
Definition demo_sync_cancel_0 : list (slot * Z) := [(Slot0, - ECANCELED)].
Definition demo_sync_cancel_1 : list (slot * Z) := [(Slot1, - ECANCELED)].

(** * Properties *)

(** ** Running the monad *)

Lemma blk_bind_unfold {A B} (m : Blk A) (k : A → Blk B) w :
  (m ≫= k) w = match m w with Some (a, w') => k a w' | None => None end.
Proof. reflexivity. Qed.

Lemma deref_ok w a b : heap w !! a = Some b → deref (Some a) w = Some (b, w).
Proof. intros H. unfold deref. rewrite H. reflexivity. Qed.

Lemma assign_ok w a b f :
  heap w !! a = Some b →
  assign (Some a) f w = Some (tt, mkWorld (<[a := f b]> (heap w)) (calls w) (qerrors w)).
Proof. intros H. unfold assign. rewrite H. reflexivity. Qed.

Lemma bind_deref {B} h cs qs a b (k : BlockDriverState → Blk B) :
  h !! a = Some b →
  (deref (Some a) ≫= k) (mkWorld h cs qs) = k b (mkWorld h cs qs).
Proof. intros H. rewrite blk_bind_unfold. unfold deref. simpl. rewrite H. reflexivity. Qed.

Lemma bind_assign {B} h cs qs a b f (k : unit → Blk B) :
  h !! a = Some b →
  (assign (Some a) f ≫= k) (mkWorld h cs qs) = k tt (mkWorld (<[a := f b]> h) cs qs).
Proof. intros H. rewrite blk_bind_unfold. unfold assign. simpl. rewrite H. reflexivity. Qed.

(** Runs the monadic code of the goal on a store whose lookups are known. *)
Ltac blk_run :=
  repeat first
    [ progress unfold mbind, mret, blk_bind, blk_ret, deref, assign, nonnull,
                      log_call, next_handle, release_dev, qerror_report
    | progress cbn [heap calls qerrors fst snd fmap option_fmap option_map
                    file backing_hd opaque keep_read_only backing_file
                    backing_format drv filename open_flags
                    set_file set_backing_hd set_opaque set_keep_read_only
                    set_backing_file set_backing_format]
    | rewrite lookup_insert_eq
    | rewrite lookup_insert_ne by congruence
    | match goal with
      | H : ?m !! ?a = Some _ |- context [?m !! ?a] => rewrite H
      | H : backing_hd ?x = _ |- context [backing_hd ?x] => rewrite H
      | H : file ?x = _ |- context [file ?x] => rewrite H
      | H : opaque ?x = _ |- context [opaque ?x] => rewrite H
      end ].

(** ** Strings of the descriptor *)

Lemma append_nil r : "" +:+ r = r.
Proof. reflexivity. Qed.

Lemma append_cons a p r : String a p +:+ r = String a (p +:+ r).
Proof. reflexivity. Qed.

Lemma strstart_append p r : strstart (p +:+ r) p = Some r.
Proof.
  induction p as [|a p IH]; rewrite ?append_nil, ?append_cons; simpl; [reflexivity|].
  unfold ascii_eqb. rewrite Ascii.eqb_refl. exact IH.
Qed.

Lemma strstart_Some s p r : strstart s p = Some r → s = p +:+ r.
Proof.
  revert s. induction p as [|a p IH]; intros s; simpl.
  - intros [= ->]. reflexivity.
  - destruct s as [|b s]; [discriminate|].
    unfold ascii_eqb. destruct (Ascii.eqb b a) eqn:E; [|discriminate].
    apply Ascii.eqb_eq in E as ->. intros H. rewrite append_cons. f_equal. apply IH, H.
Qed.

(** [strstart] fails exactly on the strings that do not begin with the
    prefix. *)
Lemma strstart_None s p : strstart s p = None ↔ ∀ r, s ≠ p +:+ r.
Proof.
  split.
  - intros H r ->. rewrite strstart_append in H. discriminate.
  - intros H. destruct (strstart s p) as [r|] eqn:E; [|reflexivity].
    apply strstart_Some in E. destruct (H r E).
Qed.

Lemma strchr_first fmt path :
  strchr fmt colon = None →
  strchr (fmt +:+ String colon path) colon = Some (String.length fmt)
  ∧ str_truncate (String.length fmt) (fmt +:+ String colon path) = fmt
  ∧ str_skip (S (String.length fmt)) (fmt +:+ String colon path) = path.
Proof.
  induction fmt as [|a fmt IH]; rewrite ?append_nil, ?append_cons; simpl.
  - intros _. split_and!; reflexivity.
  - unfold ascii_eqb in *. destruct (Ascii.eqb a colon); [discriminate|].
    intros H. destruct (strchr fmt colon) eqn:E; [discriminate|].
    destruct (IH eq_refl) as (H1 & H2 & H3). rewrite H1, H2.
    split_and!; [reflexivity | reflexivity | exact H3].
Qed.

Lemma pstrcpy_fits buf size str :
  Z.of_nat (String.length str) < size → pstrcpy buf size str = str.
Proof.
  intros H. unfold pstrcpy. destruct (size <=? 0) eqn:E; [lia|].
  assert (Hn : (String.length str ≤ Z.to_nat (size - 1))%nat) by lia.
  revert Hn. generalize (Z.to_nat (size - 1)). clear.
  induction str as [|a str IH]; intros [|n] Hn; simpl in *; try reflexivity; try lia.
  f_equal. apply IH. lia.
Qed.

(** ** [blkmirror_open] *)

(** C8. [blkmirror_open] returns [-EINVAL] and leaves the world as it was
    for every descriptor that does not begin with "blkmirror:"; and for
    every descriptor "blkmirror:<format>:<path>" whose format (the text up
    to the first colon after the prefix) is not a whitelisted driver it
    returns [-EINVAL], reports an invalid value for the parameter "format"
    and opens nothing. *)
Theorem open_rejects_bad_descriptor L bs flags w :
  (∀ name, (∀ rest, name ≠ "blkmirror:" +:+ rest) →
     blkmirror_open L bs name flags w = Some (- EINVAL, w))
  ∧ (∀ fmt path,
       strchr fmt colon = None →
       bdrv_find_whitelisted_format L fmt = None →
       blkmirror_open L bs ("blkmirror:" +:+ fmt +:+ String colon path) flags w =
       Some (- EINVAL,
             mkWorld (heap w) (calls w)
               (qerrors w ++
                [QERR_INVALID_PARAMETER_VALUE "format" "a supported format"]))).
Proof.
  split.
  - intros name H. apply strstart_None in H. unfold blkmirror_open.
    rewrite H. reflexivity.
  - intros fmt path Hfmt Hdrv. unfold blkmirror_open.
    rewrite strstart_append.
    destruct (strchr_first fmt path Hfmt) as (-> & -> & _).
    rewrite Hdrv. reflexivity.
Qed.

(** C8 on a descriptor of another driver and on an unknown format. *)
Lemma open_rejects_bad_descriptor_witness :
  blkmirror_open demo_layer 1%positive "nbd:localhost:10809" 2 demo_fresh
    = Some (- EINVAL, demo_fresh)
  ∧ blkmirror_open demo_layer 1%positive
      ("blkmirror:" +:+ "vmdk9" +:+ String colon "/tmp/target.img") 2 demo_fresh
    = Some (- EINVAL,
            mkWorld (heap demo_fresh) (calls demo_fresh)
              (qerrors demo_fresh ++
               [QERR_INVALID_PARAMETER_VALUE "format" "a supported format"])).
Proof.
  destruct (open_rejects_bad_descriptor demo_layer 1%positive 2 demo_fresh) as [H1 H2].
  split.
  - apply H1. intros rest H. rewrite append_cons in H. discriminate.
  - apply H2; reflexivity.
Defined.

Lemma fresh_addr_unused w : heap w !! fresh_addr w = None.
Proof. apply not_elem_of_dom. unfold fresh_addr. apply is_fresh. Qed.

Lemma blkmirror_open_target_run L bs filename2 flags d w m :
  heap w !! bs = Some m →
  let f := fresh_addr w in
  let r := do_open L filename2 (target_flags L flags) d bds_zero in
  blkmirror_open_target L bs filename2 flags d w =
  Some (r.1, mkWorld (<[f := r.2]> (<[bs := set_file (Some f) m]> (<[f := bds_zero]> (heap w))))
                     (calls w ++ [CallNew f] ++ [CallOpen f filename2 (target_flags L flags) d r.1])
                     (qerrors w)).
Proof.
  intros Hbs f r. pose proof (fresh_addr_unused w) as Hf.
  assert (Hne : f ≠ bs) by (intros E; subst f; rewrite E in Hf; congruence).
  unfold blkmirror_open_target, bdrv_new, bdrv_open. fold f.
  destruct w as [h cs qs]. simpl in *.
  blk_run. fold (target_flags L flags). fold r.
  rewrite <- app_assoc.
  destruct (r.1 <? 0); reflexivity.
Qed.

Lemma blkmirror_open_descriptor L bs name filename2 flags d w :
  descriptor_target L name filename2 d →
  blkmirror_open L bs name flags w = blkmirror_open_target L bs filename2 flags d w.
Proof.
  intros [(fmt & d0 & -> & Hfmt & Hdrv & ->)|(-> & Hno & ->)]; unfold blkmirror_open;
    rewrite strstart_append.
  - destruct (strchr_first fmt filename2 Hfmt) as (-> & -> & ->).
    rewrite Hdrv. reflexivity.
  - rewrite Hno. reflexivity.
Qed.

(** C7 (as the code has it).  When the open of the target fails,
    [blkmirror_open] returns the error of that open and does nothing else:
    the device it created for the target stays in the store, in whatever
    state the failed open left it, the mirror's [file] still refers to it,
    and no call deletes it.  Unwinding it is left to the caller. *)
Theorem open_failure_keeps_target_handle L bs name filename2 flags d w m :
  heap w !! bs = Some m →
  descriptor_target L name filename2 d →
  (do_open L filename2 (target_flags L flags) d bds_zero).1 < 0 →
  let f := fresh_addr w in
  let r := do_open L filename2 (target_flags L flags) d bds_zero in
  ∃ w', blkmirror_open L bs name flags w = Some (r.1, w')
    ∧ field file w' bs = Some (Some f)
    ∧ heap w' !! f = Some r.2
    ∧ calls w' = calls w ++ [CallNew f; CallOpen f filename2 (target_flags L flags) d r.1]
    ∧ qerrors w' = qerrors w.
Proof.
  intros Hbs Hdesc Hfail f r.
  rewrite (blkmirror_open_descriptor L bs name filename2 flags d w Hdesc).
  rewrite (blkmirror_open_target_run L bs filename2 flags d w m Hbs).
  pose proof (fresh_addr_unused w) as Hf.
  assert (Hne : f ≠ bs) by (intros E; subst f; rewrite E in Hf; congruence).
  eexists. split; [reflexivity|]. unfold field. fold f. simpl.
  split_and!; try reflexivity.
  - rewrite lookup_insert_ne, lookup_insert_eq by exact Hne. reflexivity.
  - rewrite lookup_insert_eq. reflexivity.
Qed.

(** C7, the claim as the spec states it, fails: after a failed open of the
    target the mirror still holds the handle, and the device is still in
    the store. *)
Lemma open_failure_target_still_reachable :
  ∃ w', blkmirror_open demo_layer 1%positive "blkmirror:raw:/missing" 2 demo_fresh
          = Some (- ENOENT, w')
    ∧ field file w' 1%positive = Some (Some 2%positive)
    ∧ heap w' !! 2%positive = Some bds_zero
    ∧ calls w' = [CallNew 2%positive;
                  CallOpen 2%positive "/missing" 834
                    (Some {| format_name := "raw" |}) (- ENOENT)].
Proof. eexists. vm_compute. split_and!; reflexivity. Qed.

(** C7 as amended, on a target path that cannot be opened. *)
Lemma open_failure_keeps_target_handle_witness :
  ∃ w', blkmirror_open demo_layer 1%positive "blkmirror:raw:/missing" 2 demo_fresh
          = Some (- ENOENT, w')
    ∧ field file w' 1%positive = Some (Some 2%positive)
    ∧ heap w' !! 2%positive = Some bds_zero
    ∧ calls w' = calls demo_fresh ++
                 [CallNew 2%positive;
                  CallOpen 2%positive "/missing" 834
                    (Some {| format_name := "raw" |}) (- ENOENT)]
    ∧ qerrors w' = qerrors demo_fresh.
Proof.
  apply (open_failure_keeps_target_handle demo_layer 1%positive
           "blkmirror:raw:/missing" "/missing" 2 (Some {| format_name := "raw" |})
           demo_fresh bds_zero).
  - vm_compute. reflexivity.
  - left. exists "raw", {| format_name := "raw" |}. split_and!; reflexivity.
  - vm_compute. reflexivity.
Defined.

(** ** [blkmirror_rebind] *)

(** C4 (as the code has it).  [blkmirror_rebind] on a mirror whose nominal
    backing slot holds the source: the source moves to the opaque slot; the
    mirror's and the target's nominal backing references become the
    source's backing reference; the source keeps its own backing reference
    (the backing device is shared, the reference is not moved away); and
    the shared backing device, when there is one, is marked
    [keep_read_only]. *)
Theorem rebind_shares_backing bs w m src s tgt :
  heap w !! bs = Some m →
  backing_hd m = Some src →
  heap w !! src = Some s →
  file m = Some tgt →
  is_Some (heap w !! tgt) →
  (∀ b, backing_hd s = Some b → is_Some (heap w !! b)) →
  ∃ w', blkmirror_rebind bs w = Some (tt, w')
    ∧ field opaque w' bs = Some (Some src)
    ∧ field backing_hd w' bs = Some (backing_hd s)
    ∧ field backing_hd w' tgt = Some (backing_hd s)
    ∧ field backing_hd w' src = Some (backing_hd s)
    ∧ (∀ b, backing_hd s = Some b → field keep_read_only w' b = Some true)
    ∧ calls w' = calls w.
Proof.
  intros Hbs Hsrc Hs Htgt [t Ht] Hb.
  unfold blkmirror_rebind, field.
  destruct w as [h cs qs]; simpl in *.
  destruct (backing_hd s) as [b|] eqn:Hsb.
  - destruct (Hb b eq_refl) as [bb Hbb]. clear Hb.
    destruct (decide (bs = src)); destruct (decide (bs = tgt));
    destruct (decide (src = tgt)); destruct (decide (bs = b));
    destruct (decide (src = b)); destruct (decide (tgt = b)); simplify_eq.
    all: blk_run.
    all: eexists; split; [reflexivity|]; blk_run.
    all: split_and!; try reflexivity; blk_run; try reflexivity.
    all: try (intros ? [= <-]; blk_run; reflexivity).
  - clear Hb.
    destruct (decide (bs = src)); destruct (decide (bs = tgt));
    destruct (decide (src = tgt)); simplify_eq.
    all: blk_run.
    all: eexists; split; [reflexivity|]; blk_run.
    all: split_and!; try reflexivity; blk_run; try reflexivity.
    all: try (intros ? [=]).
Qed.

(** C4, the claim as the spec states it, fails: after rebind the source
    still refers to its backing device. *)
Lemma rebind_source_keeps_backing :
  ∃ w', blkmirror_rebind 1%positive demo_appended = Some (tt, w')
    ∧ field backing_hd w' 2%positive = Some (Some 4%positive)
    ∧ field backing_hd w' 1%positive = Some (Some 4%positive)
    ∧ field backing_hd w' 3%positive = Some (Some 4%positive)
    ∧ field keep_read_only w' 4%positive = Some true.
Proof. eexists. vm_compute. split_and!; reflexivity. Qed.

(** C4 as amended, on [demo_appended]. *)
Lemma rebind_shares_backing_witness :
  ∃ w', blkmirror_rebind 1%positive demo_appended = Some (tt, w')
    ∧ field opaque w' 1%positive = Some (Some 2%positive)
    ∧ field backing_hd w' 1%positive = Some (Some 4%positive)
    ∧ field backing_hd w' 3%positive = Some (Some 4%positive)
    ∧ field backing_hd w' 2%positive = Some (Some 4%positive)
    ∧ (∀ b, Some 4%positive = Some b → field keep_read_only w' b = Some true)
    ∧ calls w' = calls demo_appended.
Proof.
  apply (rebind_shares_backing 1%positive demo_appended
           (set_file (Some 3%positive) (set_backing_hd (Some 2%positive) bds_zero))
           2%positive (set_backing_hd (Some 4%positive) bds_zero) 3%positive).
  - vm_compute. reflexivity.
  - reflexivity.
  - vm_compute. reflexivity.
  - reflexivity.
  - exists bds_zero. vm_compute. reflexivity.
  - intros b [= <-]. eexists. vm_compute. reflexivity.
Defined.

(** ** [blkmirror_change_backing_file] *)

(** The generic change on a device in the store. *)
Lemma bdrv_change_backing_file_run L a b path fmt w :
  heap w !! a = Some b →
  let r := do_change_backing_file L a b path fmt in
  bdrv_change_backing_file L (Some a) path fmt w =
  Some (r.1, mkWorld (<[a := r.2]> (heap w))
                     (calls w ++ [CallChangeBackingFile a path fmt r.1]) (qerrors w)).
Proof.
  intros H r. unfold bdrv_change_backing_file. destruct w as [h cs qs]; simpl in *.
  blk_run. reflexivity.
Qed.

(** The whole of [blkmirror_change_backing_file] on a mirror whose target
    is a device of its own, by the results of the two changes. *)
Lemma blkmirror_change_backing_file_run L bs path fmt w m src s tgt t :
  heap w !! bs = Some m →
  opaque m = Some src → heap w !! src = Some s →
  file m = Some tgt → heap w !! tgt = Some t →
  tgt ≠ src → tgt ≠ bs →
  let s1 := set_backing_hd (backing_hd m) s in
  let t1 := set_backing_hd (backing_hd m) t in
  let rt := do_change_backing_file L tgt t1 path fmt in
  let rs := do_change_backing_file L src s1 path fmt in
  let h3 := <[tgt := rt.2]> (<[tgt := t1]> (<[src := s1]> (heap w))) in
  let h4 := <[src := rs.2]> h3 in
  let c_tgt := CallChangeBackingFile tgt path fmt rt.1 in
  let c_src := CallChangeBackingFile src path fmt rs.1 in
  h3 !! src = Some s1 ∧ h3 !! bs = Some m
  ∧ blkmirror_change_backing_file L bs path fmt w =
    if rt.1 <? 0 then Some (rt.1, mkWorld h3 (calls w ++ [c_tgt]) (qerrors w))
    else if rs.1 <? 0
    then Some (rs.1, mkWorld h4 (calls w ++ [c_tgt; c_src]) (qerrors w))
    else
      m4 ← h4 !! bs;
      Some (0, mkWorld
                 (<[bs := set_backing_format
                            (pstrcpy (backing_format m4) (backing_format_size L)
                               (or_empty fmt))
                            (set_backing_file
                               (pstrcpy (backing_file m4) (backing_file_size L)
                                  (or_empty path)) m4)]> h4)
                 (calls w ++ [c_tgt; c_src]) (qerrors w)).
Proof.
  intros Hbs Hsrc Hs Htgt Ht Hne1 Hne2 s1 t1 rt rs h3 h4 c_tgt c_src.
  destruct w as [h cs qs]; simpl in *.
  set (h1 := <[src := s1]> h).
  assert (Hbs1 : h1 !! bs = Some m).
  { unfold h1. destruct (decide (src = bs)) as [->|Hne].
    - rewrite lookup_insert_eq. unfold s1.
      assert (Hsm : s = m) by congruence. rewrite Hsm. destruct m; reflexivity.
    - rewrite lookup_insert_ne by exact Hne. exact Hbs. }
  set (h2 := <[tgt := t1]> h1).
  assert (Hbs2 : h2 !! bs = Some m).
  { unfold h2. rewrite lookup_insert_ne by exact Hne2. exact Hbs1. }
  assert (Hs3 : h3 !! src = Some s1).
  { unfold h3. rewrite !lookup_insert_ne by congruence. apply lookup_insert_eq. }
  assert (Hbs3 : h3 !! bs = Some m).
  { unfold h3. rewrite lookup_insert_ne by exact Hne2. exact Hbs2. }
  split; [exact Hs3|]. split; [exact Hbs3|].
  unfold blkmirror_change_backing_file.
  rewrite (bind_deref h cs qs bs m _ Hbs).
  rewrite (bind_deref h cs qs bs m _ Hbs).
  rewrite Hsrc.
  rewrite (bind_assign h cs qs src s _ _ Hs). fold s1. fold h1.
  rewrite (bind_deref h1 cs qs bs m _ Hbs1).
  rewrite (bind_deref h1 cs qs src s1 _) by apply lookup_insert_eq.
  rewrite Htgt.
  assert (Ht1 : h1 !! tgt = Some t).
  { unfold h1. rewrite lookup_insert_ne by congruence. exact Ht. }
  rewrite (bind_assign h1 cs qs tgt t _ _ Ht1).
  replace (set_backing_hd (backing_hd s1) t) with t1 by (destruct s; reflexivity).
  fold h2.
  rewrite (bind_deref h2 cs qs bs m _ Hbs2).
  rewrite Htgt.
  rewrite blk_bind_unfold.
  rewrite (bdrv_change_backing_file_run L tgt t1 path fmt (mkWorld h2 cs qs))
    by apply lookup_insert_eq.
  change (do_change_backing_file L tgt t1 path fmt) with rt.
  cbn beta iota. cbn [heap calls qerrors]. fold h3. fold c_tgt.
  destruct (rt.1 <? 0) eqn:Er; [reflexivity|].
  rewrite blk_bind_unfold.
  rewrite (bdrv_change_backing_file_run L src s1 path fmt) by exact Hs3.
  change (do_change_backing_file L src s1 path fmt) with rs.
  cbn beta iota. cbn [heap calls qerrors]. fold h4. fold c_src.
  rewrite <- app_assoc. simpl.
  destruct (rs.1 <? 0) eqn:Ers; [reflexivity|].
  destruct (h4 !! bs) as [m4|] eqn:Hbs4.
  2:{ exfalso. unfold h4 in Hbs4. destruct (decide (src = bs)) as [->|Hne].
      - rewrite lookup_insert_eq in Hbs4. discriminate.
      - rewrite lookup_insert_ne in Hbs4 by exact Hne. congruence. }
  rewrite (bind_deref h4 _ _ bs m4 _ Hbs4).
  rewrite (bind_assign h4 _ _ bs m4 _ _ Hbs4).
  rewrite (bind_deref _ _ _ bs _ _ (lookup_insert_eq _ _ _)).
  rewrite (bind_assign _ _ _ bs _ _ _ (lookup_insert_eq _ _ _)).
  rewrite insert_insert_eq. reflexivity.
Qed.

(** C5. [blkmirror_change_backing_file] first re-aligns the backing
    references, then asks the target, and only then the source: the first
    call it makes is the change on the target.  When that fails, its error
    is the result, the source is not asked at all, the source's device is
    what it was but for the re-aligned backing reference (its backing file
    name and format are untouched), and the mirror's device, with its
    reported backing file name and format, is unchanged. *)
Theorem change_backing_file_target_first L bs path fmt w m src s tgt t :
  heap w !! bs = Some m →
  opaque m = Some src → heap w !! src = Some s →
  file m = Some tgt → heap w !! tgt = Some t →
  tgt ≠ src → tgt ≠ bs →
  let r := do_change_backing_file L tgt (set_backing_hd (backing_hd m) t) path fmt in
  ∃ ret w' rest,
    blkmirror_change_backing_file L bs path fmt w = Some (ret, w')
    ∧ calls w' = calls w ++ CallChangeBackingFile tgt path fmt r.1 :: rest
    ∧ (∀ c, c ∈ rest → call_dev c = Some src)
    ∧ (r.1 < 0 →
         ret = r.1
         ∧ rest = []
         ∧ heap w' !! src = Some (set_backing_hd (backing_hd m) s)
         ∧ field backing_file w' src = Some (backing_file s)
         ∧ field backing_format w' src = Some (backing_format s)
         ∧ heap w' !! bs = Some m
         ∧ field backing_file w' bs = Some (backing_file m)
         ∧ field backing_format w' bs = Some (backing_format m)).
Proof.
  intros Hbs Hsrc Hs Htgt Ht Hne1 Hne2 r.
  destruct (blkmirror_change_backing_file_run L bs path fmt w m src s tgt t
              Hbs Hsrc Hs Htgt Ht Hne1 Hne2) as (Hs3 & Hbs3 & Hrun).
  cbv zeta in Hrun, Hs3, Hbs3. fold r in Hrun, Hs3, Hbs3. rewrite Hrun. clear Hrun.
  set (s1 := set_backing_hd (backing_hd m) s) in *.
  set (rs := do_change_backing_file L src s1 path fmt).
  destruct (r.1 <? 0) eqn:Er.
  - eexists _, _, []. split; [reflexivity|]. unfold field. simpl.
    rewrite Hs3, Hbs3. split_and!; try reflexivity.
    + intros c Hc. inversion Hc.
    + intros _. split_and!; reflexivity.
  - destruct (rs.1 <? 0) eqn:Ers.
    + eexists _, _, [CallChangeBackingFile src path fmt rs.1].
      split; [reflexivity|]. simpl. split_and!; try reflexivity.
      * intros c Hc. apply list_elem_of_singleton in Hc as ->. reflexivity.
      * intros Hneg. lia.
    + match goal with |- context [?h !! bs] => destruct (h !! bs) as [m4|] eqn:Hbs4 end.
      2:{ exfalso. destruct (decide (src = bs)) as [->|Hne].
          - rewrite lookup_insert_eq in Hbs4. discriminate.
          - rewrite lookup_insert_ne in Hbs4 by exact Hne. congruence. }
      simpl. eexists _, _, [CallChangeBackingFile src path fmt rs.1].
      split; [reflexivity|]. simpl. split_and!; try reflexivity.
      * intros c Hc. apply list_elem_of_singleton in Hc as ->. reflexivity.
      * intros Hneg. lia.
Qed.

(** C5 on [demo_store], the change failing on the target. *)
Lemma change_backing_file_target_first_witness :
  ∃ w', blkmirror_change_backing_file demo_layer 1%positive
          (Some "/fail-target") (Some "qcow2") demo_store = Some (- ENOSPC, w')
    ∧ calls w' = [CallChangeBackingFile 3%positive (Some "/fail-target")
                    (Some "qcow2") (- ENOSPC)]
    ∧ field backing_file w' 2%positive = Some ""
    ∧ field backing_file w' 1%positive = Some "base.img"
    ∧ field backing_format w' 1%positive = Some "raw".
Proof.
  destruct (change_backing_file_target_first demo_layer 1%positive
              (Some "/fail-target") (Some "qcow2") demo_store demo_mirror
              2%positive (set_backing_hd (Some 4%positive) bds_zero)
              3%positive (set_backing_hd (Some 4%positive) bds_zero))
    as (ret & w' & rest & Hrun & Hcalls & _ & Hfail);
    [vm_compute; reflexivity | reflexivity | vm_compute; reflexivity | reflexivity
    | vm_compute; reflexivity | discriminate | discriminate |].
  destruct Hfail as (-> & -> & _ & Hsf & _ & _ & Hmf & Hmfmt); [vm_compute; reflexivity|].
  exists w'. split_and!; assumption.
Defined.

(** C5 as first stated, "the source device has not been mutated", fails:
    on [demo_rebased] the caller has moved the mirror's backing slot to
    device 5; the change fails on the target, and the source (2), which
    referred to device 4, now refers to device 5. *)
Lemma change_backing_file_failure_realigns_source :
  ∃ w', blkmirror_change_backing_file demo_layer 1%positive
          (Some "/fail-target") (Some "qcow2") demo_rebased = Some (- ENOSPC, w')
    ∧ calls w' = [CallChangeBackingFile 3%positive (Some "/fail-target")
                    (Some "qcow2") (- ENOSPC)]
    ∧ field backing_hd demo_rebased 2%positive = Some (Some 4%positive)
    ∧ field backing_hd w' 2%positive = Some (Some 5%positive)
    ∧ heap w' !! 2%positive ≠ heap demo_rebased !! 2%positive.
Proof.
  eexists. split; [vm_compute; reflexivity|].
  split; [reflexivity|]. split; [vm_compute; reflexivity|].
  split; [vm_compute; reflexivity|].
  vm_compute. discriminate.
Qed.

(** C6. With mirror, source and target three devices of their own,
    [blkmirror_change_backing_file] overwrites the mirror's reported
    backing file name and format (by [pstrcpy] into the two fields, so
    with the new strings themselves whenever they fit) exactly when both
    changes succeed, and then returns 0.  When the target's change fails
    it returns that error, and when the source's change fails after the
    target's succeeded it returns the source's error with the target
    already changed; in both cases the mirror's device, its reported
    metadata included, is left as it was. *)
Theorem change_backing_file_metadata L bs path fmt w m src s tgt t :
  heap w !! bs = Some m →
  opaque m = Some src → heap w !! src = Some s →
  file m = Some tgt → heap w !! tgt = Some t →
  tgt ≠ src → tgt ≠ bs → src ≠ bs →
  let rt := do_change_backing_file L tgt (set_backing_hd (backing_hd m) t) path fmt in
  let rs := do_change_backing_file L src (set_backing_hd (backing_hd m) s) path fmt in
  ∃ ret w',
    blkmirror_change_backing_file L bs path fmt w = Some (ret, w')
    ∧ (0 <= rt.1 → 0 <= rs.1 →
         ret = 0
         ∧ field backing_file w' bs =
             Some (pstrcpy (backing_file m) (backing_file_size L) (or_empty path))
         ∧ field backing_format w' bs =
             Some (pstrcpy (backing_format m) (backing_format_size L) (or_empty fmt))
         ∧ (Z.of_nat (String.length (or_empty path)) < backing_file_size L →
              field backing_file w' bs = Some (or_empty path))
         ∧ (Z.of_nat (String.length (or_empty fmt)) < backing_format_size L →
              field backing_format w' bs = Some (or_empty fmt)))
    ∧ (rt.1 < 0 → ret = rt.1 ∧ heap w' !! bs = Some m)
    ∧ (0 <= rt.1 → rs.1 < 0 →
         ret = rs.1 ∧ heap w' !! bs = Some m ∧ heap w' !! tgt = Some rt.2)
    ∧ (ret = 0 ∨ (ret < 0 ∧ heap w' !! bs = Some m)).
Proof.
  intros Hbs Hsrc Hs Htgt Ht Hne1 Hne2 Hne3 rt rs.
  destruct (blkmirror_change_backing_file_run L bs path fmt w m src s tgt t
              Hbs Hsrc Hs Htgt Ht Hne1 Hne2) as (Hs3 & Hbs3 & Hrun).
  cbv zeta in Hrun, Hs3, Hbs3. fold rt in Hrun, Hs3, Hbs3. fold rs in Hrun.
  rewrite Hrun. clear Hrun.
  destruct (rt.1 <? 0) eqn:Et.
  - eexists _, _. split; [reflexivity|]. simpl. rewrite Hbs3.
    split_and!; try (intros; lia); auto.
    right. split; [lia | reflexivity].
  - destruct (rs.1 <? 0) eqn:Es.
    + eexists _, _. split; [reflexivity|]. simpl.
      rewrite lookup_insert_ne by exact Hne3. rewrite Hbs3.
      rewrite lookup_insert_ne, lookup_insert_eq by congruence.
      split_and!; try (intros; lia); auto.
      right. split; [lia | reflexivity].
    + rewrite lookup_insert_ne by exact Hne3. rewrite Hbs3. simpl.
      eexists _, _. split; [reflexivity|]. unfold field. simpl.
      rewrite lookup_insert_eq. simpl.
      split_and!; try (intros; lia); auto.
      intros _ _. split_and!; try reflexivity.
      * intros Hfit. rewrite pstrcpy_fits by exact Hfit. reflexivity.
      * intros Hfit. rewrite pstrcpy_fits by exact Hfit. reflexivity.
Qed.

(** C6 on [demo_store]: the change failing on the source, and succeeding on both. *)
Lemma change_backing_file_metadata_witness :
  (∃ w', blkmirror_change_backing_file demo_layer 1%positive
           (Some "/fail-source") (Some "qcow2") demo_store = Some (- EIO, w')
     ∧ heap w' !! 1%positive = Some demo_mirror)
  ∧ (∃ w', blkmirror_change_backing_file demo_layer 1%positive
             (Some "/images/new-base.qcow2") (Some "qcow2") demo_store = Some (0, w')
       ∧ field backing_file w' 1%positive = Some "/images/new-base.qcow2"
       ∧ field backing_format w' 1%positive = Some "qcow2").
Proof.
  split.
  - destruct (change_backing_file_metadata demo_layer 1%positive
                (Some "/fail-source") (Some "qcow2") demo_store demo_mirror
                2%positive (set_backing_hd (Some 4%positive) bds_zero)
                3%positive (set_backing_hd (Some 4%positive) bds_zero))
      as (ret & w' & Hrun & _ & _ & Hsrc & _);
      [vm_compute; reflexivity | reflexivity | vm_compute; reflexivity | reflexivity
      | vm_compute; reflexivity | discriminate | discriminate | discriminate |].
    destruct Hsrc as (-> & Hm & _); [vm_compute; discriminate | vm_compute; reflexivity|].
    exists w'. split; assumption.
  - destruct (change_backing_file_metadata demo_layer 1%positive
                (Some "/images/new-base.qcow2") (Some "qcow2") demo_store demo_mirror
                2%positive (set_backing_hd (Some 4%positive) bds_zero)
                3%positive (set_backing_hd (Some 4%positive) bds_zero))
      as (ret & w' & Hrun & Hok & _);
      [vm_compute; reflexivity | reflexivity | vm_compute; reflexivity | reflexivity
      | vm_compute; reflexivity | discriminate | discriminate | discriminate |].
    destruct Hok as (-> & _ & _ & Hf & Hg);
      [vm_compute; discriminate | vm_compute; discriminate |].
    exists w'. split_and!; [exact Hrun | apply Hf | apply Hg]; vm_compute; reflexivity.
Defined.

(** ** Routing of reads, flushes and queries *)

(** C9. A flush and a read through the facade are each one call into the
    generic layer, on the device in the mirror's opaque slot (the source);
    a length query and an allocation query are each one call on the
    mirror's [file] (the target).  The store is left as it was, the result
    is the one that call returns, and no other device is addressed. *)
Theorem facade_routing L bs w m :
  heap w !! bs = Some m →
  (∀ src s, opaque m = Some src → heap w !! src = Some s →
     blkmirror_co_flush L bs w =
       Some (do_flush L src s,
             mkWorld (heap w) (calls w ++ [CallFlush src (do_flush L src s)]) (qerrors w))
     ∧ ∀ sector_num qiov nb_sectors f ctx,
         blkmirror_aio_readv bs sector_num qiov nb_sectors f ctx w =
           Some (length (calls w),
                 mkWorld (heap w)
                   (calls w ++ [CallReadv src sector_num qiov nb_sectors f ctx
                                  (length (calls w))])
                   (qerrors w)))
  ∧ (∀ tgt t, file m = Some tgt → heap w !! tgt = Some t →
     blkmirror_getlength L bs w =
       Some (do_getlength L tgt t,
             mkWorld (heap w) (calls w ++ [CallGetLength tgt (do_getlength L tgt t)])
               (qerrors w))
     ∧ ∀ sector_num nb_sectors,
         blkmirror_co_is_allocated L bs sector_num nb_sectors w =
           Some (do_is_allocated L tgt t sector_num nb_sectors,
                 mkWorld (heap w)
                   (calls w ++
                    [CallIsAllocated tgt sector_num nb_sectors
                       (do_is_allocated L tgt t sector_num nb_sectors).1
                       (do_is_allocated L tgt t sector_num nb_sectors).2])
                   (qerrors w))).
Proof.
  intros Hbs. destruct w as [h cs qs]; simpl in *. split.
  - intros src s Hsrc Hs. split; [|intros sector_num qiov nb_sectors f ctx].
    + unfold blkmirror_co_flush, bdrv_co_flush. blk_run. reflexivity.
    + unfold blkmirror_aio_readv, bdrv_aio_readv. blk_run. reflexivity.
  - intros tgt t Htgt Ht. split; [|intros sector_num nb_sectors].
    + unfold blkmirror_getlength, bdrv_getlength. blk_run. reflexivity.
    + unfold blkmirror_co_is_allocated, bdrv_is_allocated. blk_run. reflexivity.
Qed.

(** C9 on [demo_store]. *)
Lemma facade_routing_witness :
  blkmirror_co_flush demo_layer 1%positive demo_store =
    Some (0, mkWorld (heap demo_store) [CallFlush 2%positive 0] [])
  ∧ blkmirror_aio_readv 1%positive 64 [] 8 7%nat 42 demo_store =
    Some (0%nat, mkWorld (heap demo_store) [CallReadv 2%positive 64 [] 8 7%nat 42 0%nat] [])
  ∧ blkmirror_getlength demo_layer 1%positive demo_store =
    Some (0, mkWorld (heap demo_store) [CallGetLength 3%positive 0] [])
  ∧ blkmirror_co_is_allocated demo_layer 1%positive 64 8 demo_store =
    Some ((1, 8), mkWorld (heap demo_store) [CallIsAllocated 3%positive 64 8 1 8] []).
Proof.
  destruct (facade_routing demo_layer 1%positive demo_store demo_mirror) as [Hs Ht];
    [vm_compute; reflexivity|].
  destruct (Hs 2%positive (set_backing_hd (Some 4%positive) bds_zero)) as [Hf Hr];
    [reflexivity | vm_compute; reflexivity|].
  destruct (Ht 3%positive (set_backing_hd (Some 4%positive) bds_zero)) as [Hl Ha];
    [reflexivity | vm_compute; reflexivity|].
  split_and!; [exact Hf | exact (Hr 64 [] 8 7%nat 42) | exact Hl | exact (Ha 64 8)].
Defined.

(** ** The completion combinator: invariant of a request *)

Arguments int_wrap : simpl never.

Lemma int_wrap_id z : in_int z → int_wrap z = z.
Proof.
  unfold in_int, INT_MIN, INT_MAX, int_wrap. intros H.
  rewrite Z.mod_small; lia.
Qed.

Ltac znum a :=
  match a with Z0 => idtac | Zpos _ => idtac | Zneg _ => idtac end.

(** Evaluates the closed integer expressions of the goal. *)
Ltac zfold :=
  repeat match goal with
  | |- context [?a + ?b] =>
      znum a; znum b; let v := eval vm_compute in (a + b) in change (a + b) with v
  | |- context [?a - ?b] =>
      znum a; znum b; let v := eval vm_compute in (a - b) in change (a - b) with v
  | |- context [?a =? ?b] =>
      znum a; znum b; let v := eval vm_compute in (a =? b) in change (a =? b) with v
  | |- context [?a <? ?b] =>
      znum a; znum b; let v := eval vm_compute in (a <? b) in change (a <? b) with v
  end.

Ltac break_world w :=
  let d := fresh "d" in
  destruct w as [? d [] [] ? ? ? ?];
  let a0 := fresh "a" in let a1 := fresh "a" in
  destruct d as [? ? ? ? a0 a1 ?]; destruct a0, a1.

Lemma first_error_snoc rs r :
  first_error (rs ++ [r]) =
  if first_error rs =? 0 then (if r <? 0 then r else 0) else first_error rs.
Proof.
  induction rs as [|x rs IH]; simpl.
  - destruct (r <? 0); reflexivity.
  - destruct (x <? 0) eqn:Hx.
    + destruct (x =? 0) eqn:E; [lia | reflexivity].
    + exact IH.
Qed.

Lemma first_error_nonpos rs : first_error rs <= 0.
Proof. induction rs as [|x rs IH]; simpl; [lia|]. destruct (x <? 0) eqn:E; lia. Qed.

Lemma blkmirror_aio_cb_ok s r w :
  parent (aios (dcb w) s) = Some (dcb_at w) →
  0 < count (dcb w) → in_int (count (dcb w)) →
  blkmirror_aio_cb s r w = Ok (cb_result s r w).
Proof.
  intros Hp Hpos Hint. unfold blkmirror_aio_cb, cb_result.
  rewrite Hp, Nat.eqb_refl. simpl.
  assert (Hw : int_wrap (count (dcb w) - 1) = count (dcb w) - 1).
  { apply int_wrap_id. unfold in_int, INT_MIN, INT_MAX in *. lia. }
  destruct w as [? d ? ? ? ? ? ?]; destruct d; simpl in *.
  destruct s; simpl.
  all: destruct (0 <? count0) eqn:E; [|lia]; cbn [negb].
  all: destruct ((r <? 0) && (ret0 =? 0));
       cbn [with_dcb dcb count canceled set_count set_ret]; rewrite Hw.
  all: destruct (count0 - 1 =? 0); try reflexivity.
  all: destruct canceled0; reflexivity.
Qed.

(** A completion the backend owes runs the callback to its end: the
    assertion holds, the invariant is kept, the cancel flag is left alone
    and the record is released exactly when the last completion arrives on
    a request that was not cancelled. *)
Lemma backend_complete_in_flight c s r w :
  Inv_core c w → in_flight w s = true →
  ∃ w', backend_complete s r w = Ok w'
    ∧ Inv_core c w'
    ∧ canceled (dcb w') = canceled (dcb w)
    ∧ dcb_at w' = dcb_at w
    ∧ aio_calls w' = aio_calls w
    ∧ in_flight w' s = false
    ∧ (∀ s', s' ≠ s → in_flight w' s' = in_flight w s')
    ∧ completions w' = completions w ++ [(s, r)]
    ∧ (∀ s', s' ≠ s → aios (dcb w') s' = aios (dcb w) s')
    ∧ released w' = (released w + release_earned w')%nat.
Proof.
  intros (Hc & Hp & Hn & Hh & Hs & Hr & Hd) Hfl.
  unfold backend_complete. rewrite Hfl.
  eexists; split.
  { apply blkmirror_aio_cb_ok.
    - destruct w, s; apply Hp.
    - destruct w as [? ? [] [] ? ? ? ?], s; simpl in *; unfold outstanding in Hn;
        simpl in Hn; try discriminate; lia.
    - destruct w as [? ? [] [] ? ? ? ?], s; simpl in *; unfold outstanding in Hn;
        simpl in Hn; unfold in_int, INT_MIN, INT_MAX; lia. }
  pose proof (Hp Slot0) as Hp0. pose proof (Hp Slot1) as Hp1.
  pose proof (Hh Slot0) as Hh0. pose proof (Hh Slot1) as Hh1.
  clear Hp Hh. unfold shape, outstanding in *.
  break_world w; destruct s; cbn in *; try discriminate.
  all: repeat match goal with
       | H : ∃ _, _ |- _ => destruct H
       | H : _ ∧ _ |- _ => destruct H
       end; subst; cbn in *.
  all: unfold cb_result, Inv_core, shape, outstanding, release_earned; cbn.
  all: zfold; cbn; zfold; cbn.
  all: destruct canceled0; cbn.
  all: repeat match goal with
       | |- context [?v <? 0] => is_var v; destruct (v <? 0) eqn:?; cbn
       end.
  all: repeat match goal with
       | |- context [?v =? 0] => is_var v; destruct (v =? 0) eqn:?; try lia; cbn
       end.
  all: repeat split; try reflexivity; try lia.
  all: try (intros []; cbn; (congruence || auto)).
  all: try (do 4 eexists; split; [|reflexivity]; discriminate).
  all: try (unfold outstanding; cbn; zfold; cbn; lia).
  all: eauto 8.
Qed.

Lemma backend_complete_idle s r w :
  in_flight w s = false → backend_complete s r w = Ok w.
Proof. intros H. unfold backend_complete. rewrite H. reflexivity. Qed.

Lemma in_flight_outstanding w s : in_flight w s = true → 0 < outstanding w.
Proof.
  unfold outstanding. destruct w as [? ? [] [] ? ? ? ?], s; simpl; intros; try discriminate; lia.
Qed.

Lemma backend_complete_inv c s r w :
  Inv c w → ∃ w', backend_complete s r w = Ok w' ∧ Inv c w'.
Proof.
  intros [Hcore Hrel].
  destruct (in_flight w s) eqn:Hfl.
  - destruct (backend_complete_in_flight c s r w Hcore Hfl)
      as (w' & Hrun & Hcore' & Hcan & _ & _ & _ & _ & _ & _ & Hrel').
    exists w'. split; [exact Hrun|]. split; [exact Hcore'|].
    rewrite Hrel', Hrel. unfold release_due, release_earned. rewrite Hcan.
    apply in_flight_outstanding in Hfl.
    destruct (canceled (dcb w)); [reflexivity|].
    destruct (outstanding w =? 0) eqn:E; [lia|].
    destruct (outstanding w' =? 0); reflexivity.
  - exists w. rewrite backend_complete_idle by exact Hfl.
    split; [reflexivity | split; assumption].
Qed.

(** Completions that arrive while the cancel flag is set never release the
    record. *)
Lemma backend_complete_all_canceled c k w :
  Inv_core c w → canceled (dcb w) = true →
  ∃ w', backend_complete_all k w = Ok w'
    ∧ Inv_core c w'
    ∧ canceled (dcb w') = true
    ∧ released w' = released w
    ∧ aio_calls w' = aio_calls w
    ∧ (∀ s, aiocb (aios (dcb w') s) = aiocb (aios (dcb w) s)
            ∨ aiocb (aios (dcb w') s) = None)
    ∧ (∀ s, s ∉ k.*1 → aiocb (aios (dcb w') s) = aiocb (aios (dcb w) s)).
Proof.
  revert w. induction k as [|[s r] k IH]; intros w Hcore Hcan.
  - exists w. simpl. split_and!; auto.
  - simpl. destruct (in_flight w s) eqn:Hfl.
    + destruct (backend_complete_in_flight c s r w Hcore Hfl)
        as (w1 & Hrun & Hcore1 & Hcan1 & _ & Hcalls1 & Hfl1 & _ & _ & Hframe & Hrel1).
      rewrite Hrun. simpl.
      rewrite Hcan in Hcan1.
      destruct (IH w1 Hcore1 Hcan1) as (w' & Hrun' & Hcore' & Hcan' & Hrel' & Hcalls' & Hor & Hsame).
      exists w'. split; [exact Hrun'|]. split; [exact Hcore'|]. split; [exact Hcan'|].
      split.
      { rewrite Hrel', Hrel1. unfold release_earned. rewrite Hcan1. lia. }
      split; [congruence|]. split.
      * intros s'. destruct (Hor s') as [E|E]; [|right; exact E].
        destruct (decide (s' = s)) as [->|Hne].
        -- right. rewrite E. destruct Hcore1 as (_ & _ & _ & Hh & _). apply Hh, Hfl1.
        -- left. rewrite E, Hframe by exact Hne. reflexivity.
      * intros s' Hnot. rewrite ?fmap_cons in Hnot. simpl in Hnot.
        apply not_elem_of_cons in Hnot as [Hne Hnot].
        rewrite Hsame by exact Hnot. rewrite Hframe by exact Hne. reflexivity.
    + rewrite backend_complete_idle by exact Hfl. simpl.
      destruct (IH w Hcore Hcan) as (w' & Hrun' & Hcore' & Hcan' & Hrel' & Hcalls' & Hor & Hsame).
      exists w'. split_and!; auto.
      intros s' Hnot. rewrite ?fmap_cons in Hnot. simpl in Hnot.
      apply not_elem_of_cons in Hnot as [_ Hnot]. auto.
Qed.

Lemma Inv_core_ext c w w' :
  dcb w' = dcb w → dcb_at w' = dcb_at w → in_flight0 w' = in_flight0 w →
  in_flight1 w' = in_flight1 w → completions w' = completions w →
  delivered w' = delivered w → Inv_core c w → Inv_core c w'.
Proof.
  intros Hd Ha H0 H1 Hc Hdel. unfold Inv_core, shape, outstanding.
  assert (Hfl : ∀ s, in_flight w' s = in_flight w s) by (intros []; simpl; assumption).
  rewrite Hd, Ha, H0, H1, Hc, Hdel. intros (? & ? & ? & Hh & ?).
  repeat split; try tauto. intros s. rewrite Hfl. apply Hh.
Qed.

(** One turn of the cancel loop, the flag already set. *)
Lemma dup_aio_cancel_slot_canceled c i sync w :
  Inv_core c w → canceled (dcb w) = true →
  ∃ w', dup_aio_cancel_slot i sync w = Ok w'
    ∧ Inv_core c w'
    ∧ canceled (dcb w') = true
    ∧ released w' = released w
    ∧ aio_calls w' = aio_calls w ++ (CallCancel <$> option_list (aiocb (aios (dcb w) i)))
    ∧ (∀ s, aiocb (aios (dcb w') s) = aiocb (aios (dcb w) s)
            ∨ aiocb (aios (dcb w') s) = None)
    ∧ (∀ s, s ∉ sync.*1 → aiocb (aios (dcb w') s) = aiocb (aios (dcb w) s)).
Proof.
  intros Hcore Hcan. unfold dup_aio_cancel_slot.
  destruct (aiocb (aios (dcb w) i)) as [h|] eqn:Hh.
  - unfold bdrv_aio_cancel.
    set (w1 := log_aio_call (CallCancel h) w).
    assert (Hcore1 : Inv_core c w1).
    { apply (Inv_core_ext c w); try reflexivity; exact Hcore. }
    destruct (backend_complete_all_canceled c sync w1 Hcore1 Hcan)
      as (w' & Hrun & Hcore' & Hcan' & Hrel' & Hcalls' & Hor & Hsame).
    exists w'. split_and!; auto.
  - exists w. simpl. rewrite app_nil_r. split_and!; auto.
Qed.

Lemma cancellable_spec c w :
  Inv_core c w → cancellable w = true →
  canceled (dcb w) = false ∧ 0 < outstanding w.
Proof.
  intros (_ & _ & _ & _ & _ & _ & Hd). unfold cancellable. rewrite Hd.
  assert (0 <= outstanding w).
  { unfold outstanding. destruct (in_flight0 w), (in_flight1 w); simpl; lia. }
  destruct (outstanding w =? 0) eqn:E; [discriminate|].
  destruct (canceled (dcb w)); [discriminate|]. split; [reflexivity | lia].
Qed.

Lemma sublist_option_list {A} (a b : option A) :
  (a = b ∨ a = None) → sublist (option_list a) (option_list b).
Proof.
  intros [->| ->]; [reflexivity|]. apply sublist_nil_l.
Qed.

(** A cancel while the request is in flight: the flag is set, a cancel is
    requested for the handles still held, and the record is released, once. *)
Lemma dup_aio_cancel_inv c sync0 sync1 w :
  Inv c w → cancellable w = true →
  ∃ w' new, dup_aio_cancel sync0 sync1 w = Ok w'
    ∧ Inv c w'
    ∧ canceled (dcb w') = true
    ∧ released w = 0%nat
    ∧ released w' = 1%nat
    ∧ aio_calls w' = aio_calls w ++ (CallCancel <$> new)
    ∧ sublist new (held w)
    ∧ (Slot1 ∉ sync0.*1 → new = held w).
Proof.
  intros [Hcore Hrel] Hok.
  destruct (cancellable_spec c w Hcore Hok) as [Hcan Hpos].
  assert (Hrel0 : released w = 0%nat).
  { rewrite Hrel. unfold release_due. rewrite Hcan.
    destruct (outstanding w =? 0) eqn:E; [lia | reflexivity]. }
  unfold dup_aio_cancel.
  set (w1 := with_dcb (set_canceled true (dcb w)) w).
  assert (Hcore1 : Inv_core c w1).
  { destruct Hcore as (Hc & Hp & Hn & Hh & Hs & Hr & Hd).
    unfold Inv_core, shape, outstanding in *.
    destruct w as [? d ? ? ? ? ? ?]; destruct d; simpl in *.
    repeat split; auto. }
  assert (Hcan1 : canceled (dcb w1) = true) by (destruct w as [? []]; reflexivity).
  assert (Hheld : ∀ s, aiocb (aios (dcb w1) s) = aiocb (aios (dcb w) s)).
  { intros []; destruct w as [? []]; reflexivity. }
  destruct (dup_aio_cancel_slot_canceled c Slot0 sync0 w1 Hcore1 Hcan1)
    as (w2 & Hrun2 & Hcore2 & Hcan2 & Hrel2 & Hcalls2 & Hor2 & Hsame2).
  rewrite Hrun2. simpl.
  destruct (dup_aio_cancel_slot_canceled c Slot1 sync1 w2 Hcore2 Hcan2)
    as (w3 & Hrun3 & Hcore3 & Hcan3 & Hrel3 & Hcalls3 & Hor3 & Hsame3).
  rewrite Hrun3. simpl.
  exists (qemu_aio_release w3),
         (option_list (aiocb (aios (dcb w) Slot0)) ++ option_list (aiocb (aios (dcb w2) Slot1))).
  split; [reflexivity|]. split.
  { split.
    - apply (Inv_core_ext c w3); try reflexivity; exact Hcore3.
    - unfold release_due. simpl. rewrite Hcan3, Hrel3, Hrel2.
      destruct w as [? []]; simpl in *. lia. }
  split; [exact Hcan3|]. split; [exact Hrel0|]. split.
  { simpl. rewrite Hrel3, Hrel2. destruct w as [? []]; simpl in *. lia. }
  split.
  { simpl. rewrite Hcalls3, Hcalls2, fmap_app, Hheld, <- app_assoc.
    destruct w as [? []]; reflexivity. }
  split.
  { unfold held. apply sublist_app; [reflexivity|].
    apply sublist_option_list. rewrite <- (Hheld Slot1). apply Hor2. }
  intros Hnot. unfold held. f_equal. f_equal.
  rewrite (Hsame2 Slot1 Hnot). apply Hheld.
Qed.

Lemma step_inv c e w :
  Inv c w → step e w = Misuse ∨ ∃ w', step e w = Ok w' ∧ Inv c w'.
Proof.
  intros HI. destruct e as [s r|sync0 sync1]; simpl.
  - right. apply backend_complete_inv, HI.
  - destruct (cancellable w) eqn:Hok; [right | left; reflexivity].
    destruct (dup_aio_cancel_inv c sync0 sync1 w HI Hok) as (w' & new & Hrun & HI' & _).
    eauto.
Qed.

Lemma run_inv c t w :
  Inv c w → run t w = Misuse ∨ ∃ w', run t w = Ok w' ∧ Inv c w'.
Proof.
  revert w. induction t as [|e t IH]; intros w HI; simpl.
  - right. eauto.
  - destruct (step_inv c e w HI) as [->|(w1 & -> & HI1)]; [left; reflexivity|].
    simpl. apply IH, HI1.
Qed.

(** A request as the facade hands it out. *)
Lemma issued_inv f ctx w :
  issued f ctx w →
  ∃ bs, Inv (mkACB bs f ctx) w
    ∧ count (dcb w) = 2 ∧ canceled (dcb w) = false ∧ ret (dcb w) = 0
    ∧ in_flight0 w = true ∧ in_flight1 w = true
    ∧ delivered w = [] ∧ released w = 0%nat.
Proof.
  intros [(bw & old & at_ & bs & sec & qiov & nb & H)|(bw & old & at_ & bs & sec & nb & H)].
  - unfold blkmirror_aio_writev in H.
    destruct (heap bw !! bs) as [m|]; [|discriminate]. simpl in H.
    destruct (opaque m) as [src|]; [|discriminate]. simpl in H.
    destruct (heap bw !! src); [|discriminate]. simpl in H.
    destruct (file m) as [tgt|]; [|discriminate]. simpl in H.
    destruct (heap bw !! tgt); [|discriminate]. simpl in H.
    injection H as <-. exists bs. destruct old as [? ? ? ? [] [] ?].
    unfold Inv, Inv_core, shape, outstanding, release_due. simpl.
    split_and!; try reflexivity; intros []; simpl; congruence.
  - unfold blkmirror_aio_discard in H.
    destruct (heap bw !! bs) as [m|]; [|discriminate]. simpl in H.
    destruct (opaque m) as [src|]; [|discriminate]. simpl in H.
    destruct (heap bw !! src); [|discriminate]. simpl in H.
    destruct (file m) as [tgt|]; [|discriminate]. simpl in H.
    destruct (heap bw !! tgt); [|discriminate]. simpl in H.
    injection H as <-. exists bs. destruct old as [? ? ? ? [] [] ?].
    unfold Inv, Inv_core, shape, outstanding, release_due. simpl.
    split_and!; try reflexivity; intros []; simpl; congruence.
Qed.

Lemma outstanding_range w : 0 <= outstanding w <= 2.
Proof. unfold outstanding. destruct (in_flight0 w), (in_flight1 w); simpl; lia. Qed.

Lemma outstanding_zero w :
  outstanding w = 0 ↔ in_flight w Slot0 = false ∧ in_flight w Slot1 = false.
Proof.
  unfold outstanding. destruct w as [? ? [] [] ? ? ? ?]; simpl; split;
    intros; try lia; try tauto; destruct_and?; discriminate.
Qed.

(** What the invariant says of the completions delivered so far. *)
Lemma shape_completions c w :
  Inv_core c w →
  Z.of_nat (length (completions w)) = 2 - outstanding w
  ∧ NoDup (completions w).*1
  ∧ (∀ s, s ∈ (completions w).*1 → in_flight w s = false).
Proof.
  intros (_ & _ & _ & _ & Hs & _). unfold shape, outstanding in *.
  destruct w as [? ? [] [] comps ? ? ?]; simpl in *.
  - subst. split_and!; [reflexivity | constructor | intros s H; inversion H].
  - destruct Hs as [r ->]. simpl. split_and!; [reflexivity | |].
    + repeat constructor. intros H; inversion H.
    + intros s H. apply list_elem_of_singleton in H as ->. reflexivity.
  - destruct Hs as [r ->]. simpl. split_and!; [reflexivity | |].
    + repeat constructor. intros H; inversion H.
    + intros s H. apply list_elem_of_singleton in H as ->. reflexivity.
  - destruct Hs as (s1 & r1 & s2 & r2 & Hne & ->). simpl. split_and!; [reflexivity | |].
    + constructor; [|repeat constructor; intros H; inversion H].
      intros H. apply list_elem_of_singleton in H. contradiction.
    + intros []; reflexivity.
Qed.



(** C2. The status handed to the caller's completion function merges the
    two sub-results in completion order: it is the first one that is an
    error (negative), and 0 when neither is.  So it is 0 exactly when both
    sub-requests succeeded, and otherwise it is one of the two sub-results,
    the earlier failing one. *)
Theorem merged_result_first_error f ctx w0 t w g x m :
  issued f ctx w0 → run t w0 = Ok w → (g, x, m) ∈ delivered w →
  ∃ s1 r1 s2 r2,
    s1 ≠ s2
    ∧ completions w = [(s1, r1); (s2, r2)]
    ∧ m = first_error [r1; r2]
    ∧ (m = 0 ↔ 0 <= r1 ∧ 0 <= r2)
    ∧ (r1 < 0 → m = r1)
    ∧ (0 <= r1 → r2 < 0 → m = r2).
Proof.
  intros Hiss Hrun Hin.
  destruct (issued_inv f ctx w0 Hiss) as (bs & HI & _).
  destruct (run_inv _ t w0 HI) as [E|(w' & E & [Hcore _])]; rewrite E in Hrun;
    [discriminate|]. injection Hrun as ->.
  destruct Hcore as (_ & _ & _ & _ & Hs & Hr & Hd).
  unfold shape, outstanding in *.
  destruct w as [? ? [] [] comps del ? ?]; simpl in *; subst del;
    try (inversion Hin; fail).
  destruct Hs as (s1 & r1 & s2 & r2 & Hne & ->).
  apply list_elem_of_singleton in Hin. injection Hin as -> -> ->.
  exists s1, r1, s2, r2. rewrite Hr. simpl.
  split_and!; auto.
  - destruct (r1 <? 0) eqn:E1; destruct (r2 <? 0) eqn:E2; lia.
  - intros H. destruct (r1 <? 0) eqn:E1; [reflexivity | lia].
  - intros H1 H2. destruct (r1 <? 0) eqn:E1; [lia|].
    destruct (r2 <? 0) eqn:E2; [reflexivity | lia].
Qed.

(** C2 on [demo_trace]: the target fails with "no space", the source succeeds. *)
Lemma merged_result_first_error_witness :
  ∃ s1 r1 s2 r2,
    s1 ≠ s2
    ∧ completions demo_final = [(s1, r1); (s2, r2)]
    ∧ - ENOSPC = first_error [r1; r2]
    ∧ (- ENOSPC = 0 ↔ 0 <= r1 ∧ 0 <= r2)
    ∧ (r1 < 0 → - ENOSPC = r1)
    ∧ (0 <= r1 → r2 < 0 → - ENOSPC = r2).
Proof.
  apply (merged_result_first_error 7%nat 42 demo_request demo_trace demo_final
           7%nat 42 (- ENOSPC)).
  - left. exists demo_store, demo_stale, 10%nat, 1%positive, 64, [], 8.
    vm_compute. reflexivity.
  - vm_compute. reflexivity.
  - vm_compute. apply list_elem_of_here.
Defined.

(** The count of the record against the sub-requests in flight. *)
Lemma count_zero_idle c w : Inv_core c w → (count (dcb w) = 0 ↔ idle w).
Proof.
  intros (_ & _ & Hn & _). rewrite Hn. apply outstanding_zero.
Qed.

(** A cancel while the request is in flight, step by step: the flag is
    set; the loop asks the backends, and whatever they complete meanwhile
    leaves the record unreleased; the release comes last. *)
Lemma dup_aio_cancel_steps c sync0 sync1 w :
  Inv c w → cancellable w = true →
  ∃ w2 new, dup_aio_cancel_loop sync0 sync1 w = Ok w2
    ∧ dup_aio_cancel sync0 sync1 w = Ok (qemu_aio_release w2)
    ∧ canceled (dcb w) = false
    ∧ canceled (dcb w2) = true
    ∧ released w = 0%nat
    ∧ released w2 = 0%nat
    ∧ aio_calls w2 = aio_calls w ++ (CallCancel <$> new)
    ∧ sublist new (held w)
    ∧ (Slot1 ∉ sync0.*1 → new = held w).
Proof.
  intros [Hcore Hrel] Hok.
  destruct (cancellable_spec c w Hcore Hok) as [Hcan Hpos].
  assert (Hrel0 : released w = 0%nat).
  { rewrite Hrel. unfold release_due. rewrite Hcan.
    destruct (outstanding w =? 0) eqn:E; [lia | reflexivity]. }
  unfold dup_aio_cancel, dup_aio_cancel_loop.
  set (w1 := with_dcb (set_canceled true (dcb w)) w).
  assert (Hcore1 : Inv_core c w1).
  { destruct Hcore as (Hc & Hp & Hn & Hh & Hs & Hr & Hd).
    unfold Inv_core, shape, outstanding in *.
    destruct w as [? d ? ? ? ? ? ?]; destruct d; simpl in *.
    repeat split; auto. }
  assert (Hcan1 : canceled (dcb w1) = true) by (destruct w as [? []]; reflexivity).
  assert (Hheld : ∀ s, aiocb (aios (dcb w1) s) = aiocb (aios (dcb w) s)).
  { intros []; destruct w as [? []]; reflexivity. }
  assert (Hrel1 : released w1 = released w) by (destruct w as [? []]; reflexivity).
  assert (Hcalls1 : aio_calls w1 = aio_calls w) by (destruct w as [? []]; reflexivity).
  destruct (dup_aio_cancel_slot_canceled c Slot0 sync0 w1 Hcore1 Hcan1)
    as (w2 & Hrun2 & Hcore2 & Hcan2 & Hrel2 & Hcalls2 & Hor2 & Hsame2).
  rewrite Hrun2. cbn [and_then].
  destruct (dup_aio_cancel_slot_canceled c Slot1 sync1 w2 Hcore2 Hcan2)
    as (w3 & Hrun3 & Hcore3 & Hcan3 & Hrel3 & Hcalls3 & Hor3 & Hsame3).
  rewrite Hrun3. cbn [and_then].
  exists w3,
         (option_list (aiocb (aios (dcb w) Slot0)) ++ option_list (aiocb (aios (dcb w2) Slot1))).
  split_and!; try reflexivity; try assumption.
  - congruence.
  - rewrite Hcalls3, Hcalls2, fmap_app, Hheld, Hcalls1, <- app_assoc. reflexivity.
  - unfold held. apply sublist_app; [reflexivity|].
    apply sublist_option_list. rewrite <- (Hheld Slot1). apply Hor2.
  - intros Hnot. unfold held. f_equal. f_equal.
    rewrite (Hsame2 Slot1 Hnot). apply Hheld.
Qed.

(** C3. The record of a request issued through the facade is released at
    most once over any sequence of completions and cancels, and exactly
    once as soon as the request was cancelled or each backend has completed
    its sub-request; the pending count is zero exactly then.  A cancel of a
    request in flight first sets the cancel flag; then requests
    cancellation of handles the record still holds and of no others (of all
    of them when slot 0's cancellation does not complete slot 1 on the
    way), and whatever the backends complete during these requests leaves
    the record unreleased; and then releases the record itself.  A
    completion decrements the pending count and releases the record exactly
    when it is the last of the two and the flag is not set. *)
Theorem record_released_once f ctx w0 t w :
  issued f ctx w0 → run t w0 = Ok w →
  (released w ≤ 1)%nat
  ∧ (released w = 1%nat ↔ canceled (dcb w) = true ∨ idle w)
  ∧ (count (dcb w) = 0 ↔ idle w)
  ∧ (∀ sync0 sync1, cancellable w = true →
       ∃ w2 w' new,
         canceled (dcb w) = false ∧ released w = 0%nat
         ∧ dup_aio_cancel_loop sync0 sync1 w = Ok w2
         ∧ canceled (dcb w2) = true ∧ released w2 = 0%nat
         ∧ aio_calls w2 = aio_calls w ++ (CallCancel <$> new)
         ∧ sublist new (held w)
         ∧ (Slot1 ∉ sync0.*1 → new = held w)
         ∧ dup_aio_cancel sync0 sync1 w = Ok w'
         ∧ w' = qemu_aio_release w2
         ∧ canceled (dcb w') = true ∧ released w' = 1%nat
         ∧ aio_calls w' = aio_calls w2)
  ∧ (∀ s r, in_flight w s = true →
       ∃ w', backend_complete s r w = Ok w'
         ∧ in_flight w' s = false
         ∧ (∀ s', s' ≠ s → in_flight w' s' = in_flight w s')
         ∧ count (dcb w') = count (dcb w) - 1
         ∧ (count (dcb w') = 0 ↔ idle w')
         ∧ canceled (dcb w') = canceled (dcb w)
         ∧ released w' =
             if negb (canceled (dcb w)) && (count (dcb w') =? 0)
             then S (released w) else released w).
Proof.
  intros Hiss Hrun.
  destruct (issued_inv f ctx w0 Hiss) as (bs & HI & _).
  destruct (run_inv _ t w0 HI) as [E|(w' & E & HI')]; rewrite E in Hrun;
    [discriminate|]. injection Hrun as ->.
  pose proof HI' as [Hcore Hrel].
  pose proof (count_zero_idle _ w Hcore) as Hidle.
  pose proof Hcore as (_ & _ & Hn & _).
  unfold release_due in Hrel.
  split_and!.
  - rewrite Hrel. destruct (canceled (dcb w)); [lia|].
    destruct (outstanding w =? 0); lia.
  - rewrite <- Hidle, Hrel, Hn. destruct (canceled (dcb w)).
    + split; auto.
    + destruct (outstanding w =? 0) eqn:E0.
      * apply Z.eqb_eq in E0. split; auto.
      * apply Z.eqb_neq in E0. split; [discriminate|]. intros [?|?]; [discriminate|lia].
  - exact Hidle.
  - intros sync0 sync1 Hok.
    destruct (dup_aio_cancel_steps _ sync0 sync1 w HI' Hok)
      as (w2 & new & H1 & H2 & H3 & H4 & H5 & H6 & H7 & H8 & H9).
    exists w2, (qemu_aio_release w2), new.
    split_and!; try assumption; try reflexivity.
    cbn [qemu_aio_release released]. rewrite H6. reflexivity.
  - intros s r Hfl.
    destruct (backend_complete_in_flight _ s r w Hcore Hfl)
      as (w' & H1 & Hcore' & Hcan & _ & _ & Hfl' & Hoth & _ & _ & Hrel').
    pose proof (count_zero_idle _ w' Hcore') as Hidle'.
    pose proof Hcore' as (_ & _ & Hn' & _).
    exists w'. split_and!; try assumption.
    + rewrite Hn, Hn'. unfold outstanding.
      destruct s.
      * pose proof (Hoth Slot1 ltac:(discriminate)) as Ho. cbn [in_flight] in *.
        rewrite Hfl', Hfl, Ho. cbn [Z.b2z]. lia.
      * pose proof (Hoth Slot0 ltac:(discriminate)) as Ho. cbn [in_flight] in *.
        rewrite Hfl', Hfl, Ho. cbn [Z.b2z]. lia.
    + rewrite Hrel'. unfold release_earned. rewrite Hn', Hcan.
      destruct (canceled (dcb w)); cbn [negb andb]; [lia|].
      destruct (outstanding w' =? 0); lia.
Qed.

(** C3 on [demo_half], the target's sub-request done and the source's in
    flight: the record is not released yet; a cancel whose backend
    completes the source's sub-request on the way asks for that one handle
    and releases the record once, after the loop; without a cancel, the
    source's completion releases it once.  On [demo_cancelled], after such
    a cancel, the record has been released once. *)
Lemma record_released_once_witness :
  released demo_half = 0%nat
  ∧ (∃ w2 w',
       dup_aio_cancel_loop [(Slot0, - ECANCELED)] [] demo_half = Ok w2
       ∧ idle w2 ∧ released w2 = 0%nat
       ∧ aio_calls w2 = aio_calls demo_half ++ [CallCancel 0%nat]
       ∧ dup_aio_cancel [(Slot0, - ECANCELED)] [] demo_half = Ok w'
       ∧ released w' = 1%nat)
  ∧ (∃ w', backend_complete Slot0 0 demo_half = Ok w'
       ∧ idle w' ∧ count (dcb w') = 0 ∧ released w' = 1%nat)
  ∧ released demo_cancelled = 1%nat.
Proof.
  assert (Hiss : issued 7%nat 42 demo_request).
  { left. exists demo_store, demo_stale, 10%nat, 1%positive, 64, [], 8.
    vm_compute. reflexivity. }
  destruct (record_released_once 7%nat 42 demo_request demo_half_trace demo_half Hiss)
    as (_ & _ & _ & Hcancel & Hdone); [vm_compute; reflexivity|].
  destruct (record_released_once 7%nat 42 demo_request demo_cancel_trace demo_cancelled Hiss)
    as (_ & Hrel & _); [vm_compute; reflexivity|].
  destruct (Hcancel [(Slot0, - ECANCELED)] [] eq_refl)
    as (w2 & w' & new & _ & Hr0 & Hloop & _ & Hr2 & Hcalls & _ & Hall & Hrun & _ & _ & Hr' & _).
  destruct (Hdone Slot0 0 eq_refl) as (w3 & Hrun3 & _ & _ & Hc3 & Hi3 & _ & Hr3).
  split; [exact Hr0|]. split; [|split].
  - exists w2, w'. split; [exact Hloop|].
    assert (Hw2 : dup_aio_cancel_loop [(Slot0, - ECANCELED)] [] demo_half = Ok w2)
      by exact Hloop.
    vm_compute in Hw2. injection Hw2 as <-.
    split; [split; reflexivity|]. split; [reflexivity|]. split; [|split; assumption].
    rewrite Hcalls, Hall; [reflexivity|].
    intros Hin. apply list_elem_of_singleton in Hin. discriminate Hin.
  - exists w3. split; [exact Hrun3|].
    assert (Hc0 : count (dcb w3) = 0) by (rewrite Hc3; reflexivity).
    split; [apply Hi3, Hc0|]. split; [exact Hc0|].
    rewrite Hr3, Hc0. reflexivity.
  - apply Hrel. left. reflexivity.
Defined.

(** The assertion of [blkmirror_aio_cb] is a real check: on a record whose
    pending count is already zero the callback aborts. *)
Lemma blkmirror_aio_cb_spent_record_asserts :
  blkmirror_aio_cb Slot0 0 demo_final = AssertFailed.
Proof. vm_compute. reflexivity. Qed.

(** C10. On a request issued through the facade, whatever completions and
    cancels follow, [blkmirror_aio_cb] runs to its end every time: its
    assertion [count > 0] holds and its pointers are valid.  It has run at
    most twice, at most once per slot; the pending count starts at 2, is 2
    less the number of runs, hence 0, 1 or 2; and the slot of each run has
    its in-flight handle cleared. *)
Theorem completion_count_assertion_holds f ctx w0 t :
  issued f ctx w0 →
  count (dcb w0) = 2
  ∧ run t w0 ≠ AssertFailed
  ∧ run t w0 ≠ Fault
  ∧ ∀ w, run t w0 = Ok w →
      (length (completions w) ≤ 2)%nat
      ∧ NoDup (completions w).*1
      ∧ count (dcb w) = 2 - Z.of_nat (length (completions w))
      ∧ (count (dcb w) = 0 ∨ count (dcb w) = 1 ∨ count (dcb w) = 2)
      ∧ (∀ s, s ∈ (completions w).*1 → aiocb (aios (dcb w) s) = None)
      ∧ (∀ s r, in_flight w s = true →
           blkmirror_aio_cb s r (record_completion (s, r) (set_in_flight s false w))
           = Ok (cb_result s r (record_completion (s, r) (set_in_flight s false w)))).
Proof.
  intros Hiss.
  destruct (issued_inv f ctx w0 Hiss) as (bs & HI & Hcnt & _).
  split; [exact Hcnt|].
  destruct (run_inv _ t w0 HI) as [E|(w' & E & [Hcore _])]; rewrite E;
    (split; [discriminate|]); (split; [discriminate|]); intros w Hw; [discriminate|].
  injection Hw as ->.
  destruct (shape_completions _ w Hcore) as (Hlen & Hnd & Hdone).
  pose proof Hcore as (_ & Hp & Hn & Hh & _).
  pose proof (outstanding_range w) as Hrange.
  split_and!.
  - lia.
  - exact Hnd.
  - lia.
  - lia.
  - intros s Hs. apply Hh, Hdone, Hs.
  - intros s r Hfl. apply in_flight_outstanding in Hfl as Hpos.
    apply blkmirror_aio_cb_ok.
    + destruct w, s; apply Hp.
    + destruct w, s; simpl in *; lia.
    + destruct w, s; simpl in *; unfold in_int, INT_MIN, INT_MAX; lia.
Qed.

(** C10 on [demo_request] and [demo_trace]. *)
Lemma completion_count_assertion_holds_witness :
  count (dcb demo_request) = 2
  ∧ run demo_trace demo_request ≠ AssertFailed
  ∧ run demo_trace demo_request ≠ Fault
  ∧ ∀ w, run demo_trace demo_request = Ok w →
      (length (completions w) ≤ 2)%nat
      ∧ NoDup (completions w).*1
      ∧ count (dcb w) = 2 - Z.of_nat (length (completions w))
      ∧ (count (dcb w) = 0 ∨ count (dcb w) = 1 ∨ count (dcb w) = 2)
      ∧ (∀ s, s ∈ (completions w).*1 → aiocb (aios (dcb w) s) = None)
      ∧ (∀ s r, in_flight w s = true →
           blkmirror_aio_cb s r (record_completion (s, r) (set_in_flight s false w))
           = Ok (cb_result s r (record_completion (s, r) (set_in_flight s false w)))).
Proof.
  apply (completion_count_assertion_holds 7%nat 42 demo_request demo_trace).
  left. exists demo_store, demo_stale, 10%nat, 1%positive, 64, [], 8.
  vm_compute. reflexivity.
Defined.

(** * Further properties of the driver *)

(** ** [blkmirror_open]: accepted descriptors *)

Lemma land_lor_same a b : Z.land (Z.lor a b) b = b.
Proof.
  apply Z.bits_inj'. intros n Hn.
  rewrite Z.land_spec, Z.lor_spec. destruct (Z.testbit a n), (Z.testbit b n); reflexivity.
Qed.

Lemma land_lor_keeps a b c : Z.land a c = c → Z.land (Z.lor a b) c = c.
Proof.
  intros H. apply Z.bits_inj'. intros n Hn.
  rewrite Z.land_spec, Z.lor_spec.
  assert (Hb := f_equal (λ z, Z.testbit z n) H). simpl in Hb.
  rewrite Z.land_spec in Hb.
  destruct (Z.testbit a n), (Z.testbit b n), (Z.testbit c n); simpl in *; congruence.
Qed.

(** The three flags are forced on, whatever the caller asked for. *)
Lemma target_flags_forced L flags :
  Z.land (target_flags L flags) (BDRV_O_NO_BACKING L) = BDRV_O_NO_BACKING L
  ∧ Z.land (target_flags L flags) (BDRV_O_NO_FLUSH L) = BDRV_O_NO_FLUSH L
  ∧ Z.land (target_flags L flags) (BDRV_O_CACHE_WB L) = BDRV_O_CACHE_WB L.
Proof.
  unfold target_flags. split_and!.
  - apply land_lor_keeps, land_lor_keeps, land_lor_same.
  - apply land_lor_keeps, land_lor_same.
  - apply land_lor_same.
Qed.

(** X1. On an accepted descriptor [blkmirror_open] creates one device,
    stores it in the mirror's [file], opens it with the path and driver the
    descriptor names and with the caller's flags plus the three forced
    ones, and returns the status of that open, success or failure.  No
    other device of the store changes and nothing is reported. *)
Theorem open_opens_target L bs name filename2 flags d w m :
  heap w !! bs = Some m →
  descriptor_target L name filename2 d →
  let f := fresh_addr w in
  let fl := target_flags L flags in
  let r := do_open L filename2 fl d bds_zero in
  ∃ w', blkmirror_open L bs name flags w = Some (r.1, w')
    ∧ heap w !! f = None
    ∧ heap w' !! f = Some r.2
    ∧ heap w' !! bs = Some (set_file (Some f) m)
    ∧ (∀ a, a ≠ bs → a ≠ f → heap w' !! a = heap w !! a)
    ∧ calls w' = calls w ++ [CallNew f; CallOpen f filename2 fl d r.1]
    ∧ qerrors w' = qerrors w
    ∧ Z.land fl (BDRV_O_NO_BACKING L) = BDRV_O_NO_BACKING L
    ∧ Z.land fl (BDRV_O_NO_FLUSH L) = BDRV_O_NO_FLUSH L
    ∧ Z.land fl (BDRV_O_CACHE_WB L) = BDRV_O_CACHE_WB L.
Proof.
  intros Hbs Hdesc f fl r.
  rewrite (blkmirror_open_descriptor L bs name filename2 flags d w Hdesc).
  rewrite (blkmirror_open_target_run L bs filename2 flags d w m Hbs).
  pose proof (fresh_addr_unused w) as Hf.
  assert (Hne : f ≠ bs) by (intros E; subst f; rewrite E in Hf; congruence).
  destruct (target_flags_forced L flags) as (F1 & F2 & F3).
  eexists. split; [reflexivity|]. fold f. simpl.
  split_and!; try assumption; try reflexivity.
  - apply lookup_insert_eq.
  - rewrite lookup_insert_ne, lookup_insert_eq by exact Hne. reflexivity.
  - intros a Ha1 Ha2. rewrite !lookup_insert_ne by congruence. reflexivity.
Qed.

(** X1 on the descriptor of a raw target that opens. *)
Lemma open_opens_target_witness :
  ∃ w', blkmirror_open demo_layer 1%positive "blkmirror:raw:/tmp/target.img" 2 demo_fresh
          = Some (0, w')
    ∧ field file w' 1%positive = Some (Some 2%positive)
    ∧ field filename w' 2%positive = Some "/tmp/target.img"
    ∧ field open_flags w' 2%positive = Some 834.
Proof.
  destruct (open_opens_target demo_layer 1%positive "blkmirror:raw:/tmp/target.img"
              "/tmp/target.img" 2 (Some {| format_name := "raw" |}) demo_fresh bds_zero)
    as (w' & Hrun & _ & Hf & Hbs & _);
    [vm_compute; reflexivity
    | left; exists "raw", {| format_name := "raw" |}; split_and!; reflexivity |].
  change (fresh_addr demo_fresh) with 2%positive in Hf, Hbs.
  exists w'. unfold field. rewrite Hf, Hbs. split_and!; [exact Hrun | | |]; reflexivity.
Defined.

Lemma strchr_split s c i :
  strchr s c = Some i →
  s = str_truncate i s +:+ String c (str_skip (S i) s)
  ∧ strchr (str_truncate i s) c = None.
Proof.
  revert i. induction s as [|a s IH]; intros i; simpl; [discriminate|].
  unfold ascii_eqb. destruct (Ascii.eqb a c) eqn:E.
  - intros [= <-]. apply Ascii.eqb_eq in E as ->. simpl.
    rewrite append_nil. split; reflexivity.
  - destruct (strchr s c) as [j|] eqn:Hj; [|discriminate].
    simpl. intros [= <-]. destruct (IH j eq_refl) as [H1 H2].
    simpl. rewrite append_cons. unfold ascii_eqb. rewrite E, H2.
    split; [f_equal; exact H1 | reflexivity].
Qed.

Lemma descriptor_parse_target L name filename2 d :
  descriptor_parse L name = Some (filename2, d) ↔ descriptor_target L name filename2 d.
Proof.
  unfold descriptor_parse. split.
  - destruct (strstart name "blkmirror:") as [rest|] eqn:Hp; [|discriminate].
    apply strstart_Some in Hp. cbn [mbind option_bind].
    destruct (strchr rest colon) as [off|] eqn:Hc.
    + destruct (strchr_split rest colon off Hc) as [Hrest Hfmt].
      destruct (bdrv_find_whitelisted_format L (str_truncate off rest)) as [d0|] eqn:Hd;
        [|discriminate].
      cbn [mbind option_bind]. intros [= <- <-]. left.
      exists (str_truncate off rest), d0.
      split; [rewrite Hp; f_equal; exact Hrest | auto].
    + intros [= <- <-]. right. auto.
  - intros [(fmt & d0 & -> & Hfmt & Hd & ->)|(-> & Hno & ->)]; rewrite strstart_append;
      cbn [mbind option_bind].
    + destruct (strchr_first fmt filename2 Hfmt) as (H1 & H2 & H3).
      rewrite H1, H2, Hd. cbn [mbind option_bind]. f_equal. f_equal. exact H3.
    + rewrite Hno. reflexivity.
Qed.

Lemma accepted_parse L name : accepted L name ↔ is_Some (descriptor_parse L name).
Proof.
  split.
  - intros (f & d & H). apply descriptor_parse_target in H. rewrite H. eauto.
  - intros [[f d] H]. exists f, d. apply descriptor_parse_target, H.
Qed.

(** X2. Every descriptor is either accepted or refused: on a descriptor
    that names no target [blkmirror_open] returns [-EINVAL] without
    touching the store or calling the generic layer, whatever [bs] is. *)
Theorem open_refuses_all_others L bs name flags w :
  ¬ accepted L name →
  ∃ q, blkmirror_open L bs name flags w =
       Some (- EINVAL, mkWorld (heap w) (calls w) (qerrors w ++ q)).
Proof.
  intros Hno. rewrite accepted_parse in Hno.
  unfold descriptor_parse in Hno. unfold blkmirror_open.
  destruct (strstart name "blkmirror:") as [rest|] eqn:Hp; simpl in Hno.
  - destruct (strchr rest colon) as [off|] eqn:Hc.
    + destruct (bdrv_find_whitelisted_format L (str_truncate off rest)) as [d0|] eqn:Hd.
      * exfalso. apply Hno. simpl. eauto.
      * eexists. reflexivity.
    + exfalso. apply Hno. eauto.
  - exists []. rewrite app_nil_r. destruct w; reflexivity.
Qed.

(** X2 on a descriptor whose path has a colon and no format in front: the
    text before the colon is taken for the format. *)
Lemma open_refuses_all_others_witness :
  ∃ q, blkmirror_open demo_layer 1%positive "blkmirror:/srv/vm:1/disk.img" 0 demo_fresh =
       Some (- EINVAL, mkWorld (heap demo_fresh) (calls demo_fresh) (qerrors demo_fresh ++ q)).
Proof.
  apply (open_refuses_all_others demo_layer 1%positive "blkmirror:/srv/vm:1/disk.img").
  rewrite accepted_parse. vm_compute. intros [x Hx]. discriminate Hx.
Defined.

(** ** [blkmirror_close] *)

(** X3. [blkmirror_close] on a mirror that holds its source: both the
    source's and the target's backing references are cleared first, and
    only then is the source handed to [bdrv_delete], the one call the
    function makes.  Afterwards the source is gone from the store, the
    target stays with no backing reference, and every other device (the
    mirror, with its own backing reference, and the shared backing device)
    is as it was: they are left to the caller. *)
Theorem close_unlinks_then_deletes_source bs w m src s tgt t :
  heap w !! bs = Some m →
  opaque m = Some src → heap w !! src = Some s →
  file m = Some tgt → heap w !! tgt = Some t →
  src ≠ bs → src ≠ tgt →
  ∃ w0 w',
    blkmirror_close bs w = bdrv_delete (Some src) w0
    ∧ heap w0 !! src = Some (set_backing_hd None s)
    ∧ heap w0 !! tgt = Some (set_backing_hd None t)
    ∧ calls w0 = calls w
    ∧ bdrv_delete (Some src) w0 = Some (tt, w')
    ∧ heap w' !! src = None
    ∧ heap w' !! tgt = Some (set_backing_hd None t)
    ∧ (∀ a, a ≠ src → a ≠ tgt → heap w' !! a = heap w !! a)
    ∧ calls w' = calls w ++ [CallDelete src]
    ∧ qerrors w' = qerrors w.
Proof.
  intros Hbs Hsrc Hs Htgt Ht Hne1 Hne2.
  destruct w as [h cs qs]; simpl in *.
  set (h1 := <[src := set_backing_hd None s]> h).
  set (h2 := <[tgt := set_backing_hd None t]> h1).
  assert (Hbs1 : h1 !! bs = Some m).
  { unfold h1. rewrite lookup_insert_ne by exact Hne1. exact Hbs. }
  assert (Ht1 : h1 !! tgt = Some t).
  { unfold h1. rewrite lookup_insert_ne by exact Hne2. exact Ht. }
  assert (Hs2 : h2 !! src = Some (set_backing_hd None s)).
  { unfold h2, h1. rewrite lookup_insert_ne by congruence. apply lookup_insert_eq. }
  exists (mkWorld h2 cs qs),
         (mkWorld (delete src h2) (cs ++ [CallDelete src]) qs).
  split_and!.
  - unfold blkmirror_close.
    rewrite (bind_deref h cs qs bs m _ Hbs). rewrite Hsrc.
    rewrite (bind_assign h cs qs src s _ _ Hs). fold h1.
    rewrite (bind_deref h1 cs qs bs m _ Hbs1). rewrite Htgt.
    rewrite (bind_assign h1 cs qs tgt t _ _ Ht1). reflexivity.
  - exact Hs2.
  - apply lookup_insert_eq.
  - reflexivity.
  - unfold bdrv_delete. blk_run. reflexivity.
  - apply lookup_delete_eq.
  - simpl. rewrite lookup_delete_ne by congruence. apply lookup_insert_eq.
  - intros a Ha1 Ha2. simpl. rewrite lookup_delete_ne by congruence.
    unfold h2, h1. rewrite !lookup_insert_ne by congruence. reflexivity.
  - reflexivity.
  - reflexivity.
Qed.

(** X3 on [demo_store]: the source (2) is deleted, the backing device (4)
    stays, still marked read-only. *)
Lemma close_unlinks_then_deletes_source_witness :
  ∃ w', blkmirror_close 1%positive demo_store = Some (tt, w')
    ∧ heap w' !! 2%positive = None
    ∧ field backing_hd w' 3%positive = Some None
    ∧ field keep_read_only w' 4%positive = Some true
    ∧ field backing_hd w' 1%positive = Some (Some 4%positive)
    ∧ calls w' = [CallDelete 2%positive].
Proof.
  destruct (close_unlinks_then_deletes_source 1%positive demo_store demo_mirror
              2%positive (set_backing_hd (Some 4%positive) bds_zero)
              3%positive (set_backing_hd (Some 4%positive) bds_zero))
    as (w0 & w' & Hrun & _ & _ & _ & Hdel & Hsrc & Htgt & Hrest & Hcalls & _);
    [vm_compute; reflexivity | reflexivity | vm_compute; reflexivity | reflexivity
    | vm_compute; reflexivity | discriminate | discriminate |].
  exists w'. unfold field.
  rewrite (Hrest 4%positive), (Hrest 1%positive), Htgt by discriminate.
  split_and!; [congruence | exact Hsrc | reflexivity | vm_compute; reflexivity
              | vm_compute; reflexivity | exact Hcalls].
Defined.

(** ** [blkmirror_change_backing_file]: the backing references *)

(** X4. Whatever the caller has put into the mirror's backing slot,
    [blkmirror_change_backing_file] leaves source, target and mirror
    referring to that same backing device, whether the change of the
    backing file name succeeds or fails on either side, provided the
    backends' change does not touch a device's backing reference. *)
Theorem change_backing_file_aligns L bs path fmt w m src s tgt t :
  change_keeps_backing_hd L →
  heap w !! bs = Some m →
  opaque m = Some src → heap w !! src = Some s →
  file m = Some tgt → heap w !! tgt = Some t →
  tgt ≠ src → tgt ≠ bs → src ≠ bs →
  ∃ ret w',
    blkmirror_change_backing_file L bs path fmt w = Some (ret, w')
    ∧ field backing_hd w' bs = Some (backing_hd m)
    ∧ field backing_hd w' src = Some (backing_hd m)
    ∧ field backing_hd w' tgt = Some (backing_hd m)
    ∧ backing_aligned w' bs src tgt.
Proof.
  intros Hkeep Hbs Hsrc Hs Htgt Ht Hne1 Hne2 Hne3.
  destruct (blkmirror_change_backing_file_run L bs path fmt w m src s tgt t
              Hbs Hsrc Hs Htgt Ht Hne1 Hne2) as (Hs3 & Hbs3 & Hrun).
  cbv zeta in Hrun, Hs3, Hbs3.
  set (s1 := set_backing_hd (backing_hd m) s) in *.
  set (t1 := set_backing_hd (backing_hd m) t) in *.
  set (rt := do_change_backing_file L tgt t1 path fmt) in *.
  set (rs := do_change_backing_file L src s1 path fmt) in *.
  assert (Hrt : backing_hd rt.2 = backing_hd m).
  { unfold rt. rewrite Hkeep. destruct t; reflexivity. }
  assert (Hrs : backing_hd rs.2 = backing_hd m).
  { unfold rs. rewrite Hkeep. destruct s; reflexivity. }
  assert (Hs1 : backing_hd s1 = backing_hd m) by (destruct s; reflexivity).
  rewrite Hrun. clear Hrun.
  assert (Hfin : ∀ (ret : Z) (w' : World),
    field backing_hd w' bs = Some (backing_hd m) →
    field backing_hd w' src = Some (backing_hd m) →
    field backing_hd w' tgt = Some (backing_hd m) →
    ∃ ret0 w0, Some (ret, w') = Some (ret0, w0)
      ∧ field backing_hd w0 bs = Some (backing_hd m)
      ∧ field backing_hd w0 src = Some (backing_hd m)
      ∧ field backing_hd w0 tgt = Some (backing_hd m)
      ∧ backing_aligned w0 bs src tgt).
  { intros ret w' H1 H2 H3. exists ret, w'. split_and!; auto.
    exists (backing_hd m). auto. }
  destruct (rt.1 <? 0).
  - apply Hfin; unfold field; simpl.
    + rewrite Hbs3. reflexivity.
    + rewrite Hs3, <- Hs1. reflexivity.
    + rewrite lookup_insert_eq. simpl. rewrite Hrt. reflexivity.
  - destruct (rs.1 <? 0).
    + apply Hfin; unfold field; simpl.
      * rewrite lookup_insert_ne by congruence. rewrite Hbs3. reflexivity.
      * rewrite lookup_insert_eq. simpl. rewrite Hrs. reflexivity.
      * rewrite lookup_insert_ne, lookup_insert_eq by congruence. simpl.
        rewrite Hrt. reflexivity.
    + rewrite lookup_insert_ne by congruence. rewrite Hbs3. simpl.
      apply Hfin; unfold field; simpl.
      * rewrite lookup_insert_eq. reflexivity.
      * rewrite lookup_insert_ne, lookup_insert_eq by congruence. simpl.
        rewrite Hrs. reflexivity.
      * rewrite lookup_insert_ne by congruence.
        rewrite lookup_insert_ne, lookup_insert_eq by congruence. simpl.
        rewrite Hrt. reflexivity.
Qed.

Lemma demo_layer_keeps_backing_hd : change_keeps_backing_hd demo_layer.
Proof.
  intros a b path fmt. cbn [demo_layer do_change_backing_file].
  repeat case_match; destruct b; reflexivity.
Qed.

(** X4 on [demo_rebased], the change failing on the source. *)
Lemma change_backing_file_aligns_witness :
  ∃ w', blkmirror_change_backing_file demo_layer 1%positive
          (Some "/fail-source") None demo_rebased = Some (- EIO, w')
    ∧ field backing_hd w' 1%positive = Some (Some 5%positive)
    ∧ field backing_hd w' 2%positive = Some (Some 5%positive)
    ∧ field backing_hd w' 3%positive = Some (Some 5%positive).
Proof.
  destruct (change_backing_file_aligns demo_layer 1%positive (Some "/fail-source") None
              demo_rebased (set_backing_hd (Some 5%positive) demo_mirror)
              2%positive (set_backing_hd (Some 4%positive) bds_zero)
              3%positive (set_backing_hd (Some 4%positive) bds_zero)
              demo_layer_keeps_backing_hd)
    as (ret & w' & Hrun & H1 & H2 & H3 & _);
    [vm_compute; reflexivity | reflexivity | vm_compute; reflexivity | reflexivity
    | vm_compute; reflexivity | discriminate | discriminate | discriminate |].
  exists w'. split_and!; [|exact H1 | exact H2 | exact H3].
  rewrite Hrun. f_equal. f_equal.
  assert (E : blkmirror_change_backing_file demo_layer 1%positive
                (Some "/fail-source") None demo_rebased ≫= (λ p, Some p.1) = Some (- EIO))
    by (vm_compute; reflexivity).
  rewrite Hrun in E. simpl in E. congruence.
Defined.

(** ** From open to the first request *)

(** [blkmirror_rebind] on three devices of their own whose backing device,
    if any, is a fourth. *)
Lemma blkmirror_rebind_run h cs qs bs m src s tgt t :
  h !! bs = Some m → backing_hd m = Some src → h !! src = Some s →
  file m = Some tgt → h !! tgt = Some t →
  bs ≠ src → bs ≠ tgt → src ≠ tgt →
  (∀ b, backing_hd s = Some b → b ≠ bs ∧ b ≠ src ∧ b ≠ tgt ∧ is_Some (h !! b)) →
  ∃ h', blkmirror_rebind bs (mkWorld h cs qs) = Some (tt, mkWorld h' cs qs)
    ∧ h' !! bs = Some (set_backing_hd (backing_hd s) (set_opaque (Some src) m))
    ∧ h' !! src = Some s
    ∧ h' !! tgt = Some (set_backing_hd (backing_hd s) t).
Proof.
  intros Hbs Hsrc Hs Htgt Ht Hne1 Hne2 Hne3 Hb.
  unfold blkmirror_rebind.
  destruct (backing_hd s) as [b|] eqn:Hsb.
  - destruct (Hb b eq_refl) as (Hb1 & Hb2 & Hb3 & [bb Hbb]).
    blk_run. eexists. split; [reflexivity|]. blk_run. split_and!; reflexivity.
  - blk_run. eexists. split; [reflexivity|]. blk_run. split_and!; reflexivity.
Qed.

(** X5. Open, attach, rebind, use: after [blkmirror_open] on an accepted
    descriptor, the attach step and [blkmirror_rebind], the mirror holds
    the attached source in its opaque slot and the device that open created
    as its target; the target shares the source's backing reference; a
    flush goes to the source and a write goes to the source and to the
    created target, in this order, with the caller's sector range and
    data. *)
Theorem mirror_lifecycle L bs name filename2 flags d w m src s
    old at_ sector_num qiov nb_sectors f ctx :
  heap w !! bs = Some m → heap w !! src = Some s → src ≠ bs →
  descriptor_target L name filename2 d →
  (∀ b, backing_hd s = Some b → b ≠ bs ∧ b ≠ src ∧ is_Some (heap w !! b)) →
  let tgt := fresh_addr w in
  ∃ r w1 w2 w3 a ret w4,
    blkmirror_open L bs name flags w = Some (r, w1)
    ∧ attach_source bs src w1 = Some (tt, w2)
    ∧ blkmirror_rebind bs w2 = Some (tt, w3)
    ∧ field opaque w3 bs = Some (Some src)
    ∧ field file w3 bs = Some (Some tgt)
    ∧ field backing_hd w3 bs = Some (backing_hd s)
    ∧ field backing_hd w3 tgt = Some (backing_hd s)
    ∧ field backing_hd w3 src = Some (backing_hd s)
    ∧ blkmirror_co_flush L bs w3 = Some (ret, w4)
    ∧ calls w4 = calls w3 ++ [CallFlush src ret]
    ∧ blkmirror_aio_writev w3 old at_ bs sector_num qiov nb_sectors f ctx = Some a
    ∧ aio_calls a = [CallWritev src sector_num qiov nb_sectors 0%nat;
                     CallWritev tgt sector_num qiov nb_sectors 1%nat]
    ∧ held a = [0%nat; 1%nat].
Proof.
  intros Hbs Hs Hne Hdesc Hb tgt.
  pose proof (fresh_addr_unused w) as Hf. fold tgt in Hf.
  assert (Hn1 : tgt ≠ bs) by (intros E; rewrite E in Hf; congruence).
  assert (Hn2 : tgt ≠ src) by (intros E; rewrite E in Hf; congruence).
  rewrite (blkmirror_open_descriptor L bs name filename2 flags d w Hdesc).
  rewrite (blkmirror_open_target_run L bs filename2 flags d w m Hbs).
  fold tgt. set (r := do_open L filename2 (target_flags L flags) d bds_zero).
  destruct w as [h cs qs]; simpl in *.
  set (m1 := set_file (Some tgt) m).
  set (h1 := <[tgt := r.2]> (<[bs := m1]> (<[tgt := bds_zero]> h))).
  set (cs1 := cs ++ [CallNew tgt] ++ [CallOpen tgt filename2 (target_flags L flags) d r.1]).
  assert (H1bs : h1 !! bs = Some m1).
  { unfold h1. rewrite lookup_insert_ne, lookup_insert_eq by exact Hn1. reflexivity. }
  set (m2 := set_backing_hd (Some src) m1).
  set (h2 := <[bs := m2]> h1).
  assert (H2src : h2 !! src = Some s).
  { unfold h2, h1. rewrite !lookup_insert_ne by congruence. exact Hs. }
  assert (H2tgt : h2 !! tgt = Some r.2).
  { unfold h2, h1. rewrite lookup_insert_ne by congruence. apply lookup_insert_eq. }
  assert (Hb2 : ∀ b, backing_hd s = Some b →
                     b ≠ bs ∧ b ≠ src ∧ b ≠ tgt ∧ is_Some (h2 !! b)).
  { intros b Hsb. destruct (Hb b Hsb) as (B1 & B2 & [bb B3]).
    assert (b ≠ tgt) by (intros E; rewrite E in B3; congruence).
    split_and!; auto. exists bb. unfold h2, h1.
    rewrite !lookup_insert_ne by congruence. exact B3. }
  destruct (blkmirror_rebind_run h2 cs1 qs bs m2 src s tgt r.2)
    as (h3 & Hrun3 & H3bs & H3src & H3tgt); auto.
  { apply lookup_insert_eq. }
  exists r.1, (mkWorld h1 cs1 qs), (mkWorld h2 cs1 qs), (mkWorld h3 cs1 qs).
  eexists _, _, _. unfold field. simpl. rewrite H3bs, H3src, H3tgt.
  unfold m2, m1 in H3bs |- *.
  split_and!; try reflexivity.
  - unfold attach_source.
    rewrite (assign_ok (mkWorld h1 cs1 qs) bs (set_file (Some tgt) m)) by exact H1bs.
    reflexivity.
  - exact Hrun3.
  - unfold blkmirror_co_flush, bdrv_co_flush. blk_run. reflexivity.
  - reflexivity.
  - unfold blkmirror_aio_writev. simpl. rewrite H3bs. simpl. rewrite H3src. simpl.
    rewrite H3tgt. reflexivity.
  - reflexivity.
  - reflexivity.
Qed.

(** X5 on a fresh mirror (1) and a source (2) backed by device 4. *)
Lemma mirror_lifecycle_witness :
  ∃ r w1 w2 w3 a ret w4,
    blkmirror_open demo_layer 1%positive "blkmirror:/tmp/target.img" 0 demo_unopened
      = Some (r, w1)
    ∧ attach_source 1%positive 2%positive w1 = Some (tt, w2)
    ∧ blkmirror_rebind 1%positive w2 = Some (tt, w3)
    ∧ field opaque w3 1%positive = Some (Some 2%positive)
    ∧ field file w3 1%positive = Some (Some (fresh_addr demo_unopened))
    ∧ field backing_hd w3 1%positive = Some (Some 4%positive)
    ∧ field backing_hd w3 (fresh_addr demo_unopened) = Some (Some 4%positive)
    ∧ field backing_hd w3 2%positive = Some (Some 4%positive)
    ∧ blkmirror_co_flush demo_layer 1%positive w3 = Some (ret, w4)
    ∧ calls w4 = calls w3 ++ [CallFlush 2%positive ret]
    ∧ blkmirror_aio_writev w3 demo_stale 10%nat 1%positive 64 [] 8 7%nat 42 = Some a
    ∧ aio_calls a = [CallWritev 2%positive 64 [] 8 0%nat;
                     CallWritev (fresh_addr demo_unopened) 64 [] 8 1%nat]
    ∧ held a = [0%nat; 1%nat].
Proof.
  apply (mirror_lifecycle demo_layer 1%positive "blkmirror:/tmp/target.img"
           "/tmp/target.img" 0 None demo_unopened bds_zero 2%positive
           (set_backing_hd (Some 4%positive) bds_zero)).
  - vm_compute. reflexivity.
  - vm_compute. reflexivity.
  - discriminate.
  - right. split_and!; reflexivity.
  - intros b [= <-]. split_and!; [discriminate | discriminate |].
    eexists. vm_compute. reflexivity.
Defined.

(** ** The completion combinator: further properties *)

(** X6. A request does not depend on what the record taken from the pool
    held: [dup_aio_get] and the two stores of the sub-request handles write
    every field the combinator reads.  Two records that agree on the one
    field nothing writes, [cb], give the same request, for a write and for
    a discard. *)
Theorem issue_ignores_stale_record w old old' at_ bs sector_num qiov nb_sectors f ctx :
  cb old = cb old' →
  blkmirror_aio_writev w old at_ bs sector_num qiov nb_sectors f ctx
    = blkmirror_aio_writev w old' at_ bs sector_num qiov nb_sectors f ctx
  ∧ blkmirror_aio_discard w old at_ bs sector_num nb_sectors f ctx
    = blkmirror_aio_discard w old' at_ bs sector_num nb_sectors f ctx.
Proof.
  intros Hcb. unfold blkmirror_aio_writev, blkmirror_aio_discard.
  destruct old as [? ? ? ? [] [] ?], old' as [? ? ? ? [] [] ?]. simpl in Hcb. subst.
  destruct (heap w !! bs) as [m|]; [|split; reflexivity]. simpl.
  destruct (opaque m) as [src|]; [|split; reflexivity]. simpl.
  destruct (heap w !! src); [|split; reflexivity]. simpl.
  destruct (file m) as [tgt|]; [|split; reflexivity]. simpl.
  destruct (heap w !! tgt); split; reflexivity.
Qed.

(** X6 on a zeroed record and one left over from a cancelled, failed
    request. *)
Lemma issue_ignores_stale_record_witness :
  blkmirror_aio_writev demo_store demo_stale 10%nat 1%positive 64 [] 8 7%nat 42
    = blkmirror_aio_writev demo_store
        (mkDup (mkACB 1%positive 0%nat 0) 0 false None
               (mkSingle None None) (mkSingle None None) 0)
        10%nat 1%positive 64 [] 8 7%nat 42
  ∧ blkmirror_aio_discard demo_store demo_stale 10%nat 1%positive 64 8 7%nat 42
    = blkmirror_aio_discard demo_store
        (mkDup (mkACB 1%positive 0%nat 0) 0 false None
               (mkSingle None None) (mkSingle None None) 0)
        10%nat 1%positive 64 8 7%nat 42.
Proof.
  apply (issue_ignores_stale_record demo_store demo_stale
           (mkDup (mkACB 1%positive 0%nat 0) 0 false None
                  (mkSingle None None) (mkSingle None None) 0)).
  reflexivity.
Defined.

Lemma issued_completions f ctx w : issued f ctx w → completions w = [].
Proof.
  intros H. destruct (issued_inv f ctx w H) as (bs & [Hcore _] & _ & _ & _ & H0 & H1 & _).
  destruct Hcore as (_ & _ & _ & _ & Hs & _). unfold shape in Hs.
  rewrite H0, H1 in Hs. exact Hs.
Qed.

(** The two completions of a request, in either order. *)
Lemma run_two_completions f ctx w0 s1 r1 s2 r2 :
  issued f ctx w0 → s1 ≠ s2 →
  ∃ w, run [Complete s1 r1; Complete s2 r2] w0 = Ok w
    ∧ delivered w = [(f, ctx, first_error [r1; r2])]
    ∧ completions w = [(s1, r1); (s2, r2)].
Proof.
  intros Hiss Hne.
  pose proof (issued_completions f ctx w0 Hiss) as Hc0.
  destruct (issued_inv f ctx w0 Hiss) as (bs & [Hcore _] & _ & _ & _ & H0 & H1 & _).
  assert (Hfl1 : in_flight w0 s1 = true) by (destruct s1; assumption).
  assert (Hfl2 : in_flight w0 s2 = true) by (destruct s2; assumption).
  destruct (backend_complete_in_flight _ s1 r1 w0 Hcore Hfl1)
    as (wa & Ha & Hca & _ & _ & _ & Hfa & Hfra & Hcomp_a & _).
  assert (Hfl2a : in_flight wa s2 = true) by (rewrite Hfra by congruence; exact Hfl2).
  destruct (backend_complete_in_flight _ s2 r2 wa Hca Hfl2a)
    as (wb & Hb & Hcb & _ & _ & _ & Hfb & Hfrb & Hcomp_b & _).
  exists wb. simpl. rewrite Ha. simpl. rewrite Hb. simpl.
  assert (Hcomp : completions wb = [(s1, r1); (s2, r2)]).
  { rewrite Hcomp_b, Hcomp_a, Hc0. reflexivity. }
  split; [reflexivity|]. split; [|exact Hcomp].
  destruct Hcb as (_ & _ & _ & _ & _ & Hr & Hd).
  assert (Hz : outstanding wb = 0).
  { assert (Hf1 : in_flight wb s1 = false) by (rewrite Hfrb by congruence; exact Hfa).
    apply outstanding_zero. destruct s1, s2; try congruence; split; assumption. }
  rewrite Hz in Hd. simpl in Hd. rewrite Hd, Hr, Hcomp. reflexivity.
Qed.

(** X7. The merged status depends on the order of the two completions
    only when both sub-requests fail with different codes: completing the
    source first and completing the target first hand the caller the same
    status exactly when one of the two results is not an error or the two
    are equal. *)
Theorem merged_result_order f ctx w0 r0 r1 :
  issued f ctx w0 →
  ∃ wa wb,
    run [Complete Slot0 r0; Complete Slot1 r1] w0 = Ok wa
    ∧ run [Complete Slot1 r1; Complete Slot0 r0] w0 = Ok wb
    ∧ delivered wa = [(f, ctx, first_error [r0; r1])]
    ∧ delivered wb = [(f, ctx, first_error [r1; r0])]
    ∧ (delivered wa = delivered wb ↔ 0 <= r0 ∨ 0 <= r1 ∨ r0 = r1).
Proof.
  intros Hiss.
  destruct (run_two_completions f ctx w0 Slot0 r0 Slot1 r1 Hiss) as (wa & Ha & Hda & _);
    [discriminate|].
  destruct (run_two_completions f ctx w0 Slot1 r1 Slot0 r0 Hiss) as (wb & Hb & Hdb & _);
    [discriminate|].
  exists wa, wb. split_and!; try assumption.
  rewrite Hda, Hdb. simpl.
  destruct (r0 <? 0) eqn:E0; destruct (r1 <? 0) eqn:E1.
  - split.
    + intros [= H]. lia.
    + intros [H|[H|H]]; try lia. rewrite H. reflexivity.
  - split; [intros _; lia | reflexivity].
  - split; [intros _; lia | reflexivity].
  - split; [intros _; lia | reflexivity].
Qed.

(** X7 with the source out of space and the target failing on I/O. *)
Lemma merged_result_order_witness :
  ∃ wa wb,
    run [Complete Slot0 (- ENOSPC); Complete Slot1 (- EIO)] demo_request = Ok wa
    ∧ run [Complete Slot1 (- EIO); Complete Slot0 (- ENOSPC)] demo_request = Ok wb
    ∧ delivered wa = [(7%nat, 42, - ENOSPC)]
    ∧ delivered wb = [(7%nat, 42, - EIO)].
Proof.
  destruct (merged_result_order 7%nat 42 demo_request (- ENOSPC) (- EIO))
    as (wa & wb & Ha & Hb & Hda & Hdb & _).
  - left. exists demo_store, demo_stale, 10%nat, 1%positive, 64, [], 8.
    vm_compute. reflexivity.
  - exists wa, wb. split_and!; assumption.
Defined.

(** X8. [dup_aio_cancel] releases the record unconditionally.  On a
    request whose completion function has already run (and which was
    therefore released by the last completion) it asks no backend for
    anything and releases the record a second time: the handle must not be
    cancelled after completion, which is why the environment refuses that
    event. *)
Theorem cancel_after_completion_releases_again f ctx w0 t w sync0 sync1 :
  issued f ctx w0 → run t w0 = Ok w →
  delivered w ≠ [] → canceled (dcb w) = false →
  ∃ w', dup_aio_cancel sync0 sync1 w = Ok w'
    ∧ released w = 1%nat
    ∧ released w' = 2%nat
    ∧ aio_calls w' = aio_calls w
    ∧ delivered w' = delivered w
    ∧ step (Cancel sync0 sync1) w = Misuse.
Proof.
  intros Hiss Hrun Hdel Hcan.
  destruct (issued_inv f ctx w0 Hiss) as (bs & HI & _).
  destruct (run_inv _ t w0 HI) as [E|(w' & E & [Hcore Hrel])]; rewrite E in Hrun;
    [discriminate|]. injection Hrun as ->.
  destruct Hcore as (_ & _ & _ & Hh & _ & _ & Hd).
  destruct (outstanding w =? 0) eqn:Ez; [|rewrite Hd in Hdel; contradiction].
  apply Z.eqb_eq in Ez. pose proof Ez as Hz. apply outstanding_zero in Hz as [Hz0 Hz1].
  pose proof (Hh Slot0 Hz0) as Ha0. pose proof (Hh Slot1 Hz1) as Ha1.
  unfold release_due in Hrel. rewrite Hcan, Ez in Hrel. simpl in Hrel.
  unfold dup_aio_cancel, dup_aio_cancel_slot, step, cancellable.
  destruct w as [? d ? ? ? del ? ?]; destruct d as [? ? ? ? [] [] ?]; simpl in *.
  subst. eexists. split; [reflexivity|]. simpl.
  split_and!; reflexivity.
Qed.

(** X8 on [demo_final], both sub-requests completed. *)
Lemma cancel_after_completion_releases_again_witness :
  ∃ w', dup_aio_cancel [] [] demo_final = Ok w'
    ∧ released demo_final = 1%nat
    ∧ released w' = 2%nat
    ∧ aio_calls w' = aio_calls demo_final
    ∧ delivered w' = delivered demo_final
    ∧ step (Cancel [] []) demo_final = Misuse.
Proof.
  apply (cancel_after_completion_releases_again 7%nat 42 demo_request demo_trace).
  - left. exists demo_store, demo_stale, 10%nat, 1%positive, 64, [], 8.
    vm_compute. reflexivity.
  - vm_compute. reflexivity.
  - discriminate.
  - reflexivity.
Defined.

Lemma issued_handles_stored f ctx w : issued f ctx w → handles_stored w.
Proof.
  intros [(bw & old & at_ & bs & sec & qiov & nb & H)|(bw & old & at_ & bs & sec & nb & H)].
  - unfold blkmirror_aio_writev in H.
    destruct (heap bw !! bs) as [m|]; [|discriminate]. simpl in H.
    destruct (opaque m) as [src|]; [|discriminate]. simpl in H.
    destruct (heap bw !! src); [|discriminate]. simpl in H.
    destruct (file m) as [tgt|]; [|discriminate]. simpl in H.
    destruct (heap bw !! tgt); [|discriminate]. simpl in H.
    injection H as <-. destruct old as [? ? ? ? [] [] ?].
    intros [] _; simpl; eauto.
  - unfold blkmirror_aio_discard in H.
    destruct (heap bw !! bs) as [m|]; [|discriminate]. simpl in H.
    destruct (opaque m) as [src|]; [|discriminate]. simpl in H.
    destruct (heap bw !! src); [|discriminate]. simpl in H.
    destruct (file m) as [tgt|]; [|discriminate]. simpl in H.
    destruct (heap bw !! tgt); [|discriminate]. simpl in H.
    injection H as <-. destruct old as [? ? ? ? [] [] ?].
    intros [] _; simpl; eauto.
Qed.

Lemma handles_stored_ext w w' :
  (∀ s, in_flight w' s = in_flight w s) →
  (∀ s, aiocb (aios (dcb w') s) = aiocb (aios (dcb w) s)) →
  handles_stored w → handles_stored w'.
Proof. intros Hf Ha Hst s Hs. rewrite Ha. apply Hst. rewrite <- Hf. exact Hs. Qed.

(** Completions driven in a row: the listed slots end idle, and the
    handles of the slots still in flight stay stored. *)
Lemma backend_complete_all_flight c k w :
  Inv_core c w → handles_stored w →
  ∃ w', backend_complete_all k w = Ok w'
    ∧ Inv_core c w'
    ∧ handles_stored w'
    ∧ canceled (dcb w') = canceled (dcb w)
    ∧ (∀ s, s ∈ k.*1 → in_flight w' s = false)
    ∧ (∀ s, in_flight w s = false → in_flight w' s = false).
Proof.
  revert w. induction k as [|[s r] k IH]; intros w Hcore Hst.
  - exists w. simpl. split_and!; auto. intros s Hs. inversion Hs.
  - simpl. destruct (in_flight w s) eqn:Hfl.
    + destruct (backend_complete_in_flight c s r w Hcore Hfl)
        as (w1 & Hrun & Hcore1 & Hcan1 & _ & _ & Hfl1 & Hfr & _ & Hframe & _).
      rewrite Hrun. simpl.
      assert (Hst1 : handles_stored w1).
      { intros s' Hs'. destruct (decide (s' = s)) as [->|Hne]; [congruence|].
        rewrite Hframe by exact Hne. apply Hst. rewrite <- Hfr by exact Hne. exact Hs'. }
      destruct (IH w1 Hcore1 Hst1) as (w' & Hrun' & Hcore' & Hst' & Hcan' & Hin & Hmono).
      exists w'. split_and!; auto; [congruence | |].
      * intros s' Hs'. apply elem_of_cons in Hs' as [->|Hs']; [apply Hmono, Hfl1 | apply Hin, Hs'].
      * intros s' Hs'. apply Hmono. destruct (decide (s' = s)) as [->|Hne]; [exact Hfl1|].
        rewrite Hfr by exact Hne. exact Hs'.
    + rewrite backend_complete_idle by exact Hfl. simpl.
      destruct (IH w Hcore Hst) as (w' & Hrun' & Hcore' & Hst' & Hcan' & Hin & Hmono).
      exists w'. split_and!; auto.
      intros s' Hs'. apply elem_of_cons in Hs' as [->|Hs']; [apply Hmono, Hfl | apply Hin, Hs'].
Qed.

(** One turn of the cancel loop under a backend that completes the
    cancelled sub-request before it returns. *)
Lemma dup_aio_cancel_slot_flight c i sync w :
  Inv_core c w → handles_stored w →
  ∃ w', dup_aio_cancel_slot i sync w = Ok w'
    ∧ Inv_core c w'
    ∧ handles_stored w'
    ∧ canceled (dcb w') = canceled (dcb w)
    ∧ (i ∈ sync.*1 → in_flight w' i = false)
    ∧ (∀ s, in_flight w s = false → in_flight w' s = false).
Proof.
  intros Hcore Hst. unfold dup_aio_cancel_slot.
  destruct (aiocb (aios (dcb w) i)) as [h|] eqn:Hh.
  - unfold bdrv_aio_cancel. set (w1 := log_aio_call (CallCancel h) w).
    assert (Hcore1 : Inv_core c w1) by (apply (Inv_core_ext c w); try reflexivity; exact Hcore).
    assert (Hst1 : handles_stored w1).
    { apply (handles_stored_ext w); [| |exact Hst]; intros []; reflexivity. }
    destruct (backend_complete_all_flight c sync w1 Hcore1 Hst1)
      as (w' & Hrun & Hcore' & Hst' & Hcan' & Hin & Hmono).
    exists w'. split_and!; auto.
  - exists w. split_and!; auto. intros _.
    destruct (in_flight w i) eqn:Hfl; [|reflexivity].
    destruct (Hst i Hfl) as [h Hsome]. congruence.
Qed.

Lemma Inv_core_flagged c w :
  Inv_core c w → Inv_core c (with_dcb (set_canceled true (dcb w)) w).
Proof.
  intros (Hc & Hp & Hn & Hh & Hs & Hr & Hd).
  unfold Inv_core, shape, outstanding in *.
  destruct w as [? d ? ? ? ? ? ?]; destruct d; simpl in *.
  repeat split; auto.
Qed.

(** The cancel path keeps the handles of what is still in flight, and
    leaves idle the slots whose cancellation completed them. *)
Lemma dup_aio_cancel_flight c sync0 sync1 w :
  Inv_core c w → handles_stored w →
  ∃ w', dup_aio_cancel sync0 sync1 w = Ok w'
    ∧ handles_stored w'
    ∧ (Slot0 ∈ sync0.*1 → in_flight w' Slot0 = false)
    ∧ (Slot1 ∈ sync1.*1 → in_flight w' Slot1 = false).
Proof.
  intros Hcore Hst. unfold dup_aio_cancel.
  set (w1 := with_dcb (set_canceled true (dcb w)) w).
  assert (Hcore1 : Inv_core c w1) by apply Inv_core_flagged, Hcore.
  assert (Hst1 : handles_stored w1).
  { apply (handles_stored_ext w); [| |exact Hst]; intros []; unfold w1;
      destruct w as [? []]; reflexivity. }
  destruct (dup_aio_cancel_slot_flight c Slot0 sync0 w1 Hcore1 Hst1)
    as (w2 & Hrun2 & Hcore2 & Hst2 & _ & Hf2 & _).
  rewrite Hrun2. simpl.
  destruct (dup_aio_cancel_slot_flight c Slot1 sync1 w2 Hcore2 Hst2)
    as (w3 & Hrun3 & _ & Hst3 & _ & Hf3 & Hmono3).
  rewrite Hrun3. simpl.
  eexists. split; [reflexivity|]. split_and!.
  - apply (handles_stored_ext w3); [| |exact Hst3]; intros []; reflexivity.
  - intros H. apply (Hmono3 Slot0), Hf2, H.
  - intros H. apply Hf3, H.
Qed.

Lemma run_handles_stored c t w w' :
  Inv c w → handles_stored w → run t w = Ok w' → handles_stored w'.
Proof.
  revert w. induction t as [|e t IH]; intros w HI Hst; simpl.
  - intros [= <-]. exact Hst.
  - destruct (step_inv c e w HI) as [E|(w1 & E & HI1)]; rewrite E; simpl; [discriminate|].
    apply IH; [exact HI1|].
    pose proof HI as [Hcore _].
    destruct e as [s r|sync0 sync1]; simpl in E.
    + destruct (backend_complete_all_flight c [(s, r)] w Hcore Hst)
        as (w2 & Hrun & _ & Hst2 & _).
      simpl in Hrun. rewrite E in Hrun. simpl in Hrun. injection Hrun as <-. exact Hst2.
    + destruct (cancellable w); [|discriminate].
      destruct (dup_aio_cancel_flight c sync0 sync1 w Hcore Hst) as (w2 & Hrun & Hst2 & _).
      rewrite E in Hrun. injection Hrun as <-. exact Hst2.
Qed.

(** X9. With backends whose cancel completes the cancelled sub-request
    before it returns (as QEMU's [bdrv_aio_cancel] does), a cancel of a
    request in flight returns only after the caller's completion function
    has run, exactly once: no sub-request is left in flight, no handle is
    left in the record, and the record has been released once, so nothing
    touches it after its release. *)
Theorem synchronous_cancel_completes f ctx w0 t w sync0 sync1 :
  issued f ctx w0 → run t w0 = Ok w →
  cancellable w = true →
  Slot0 ∈ sync0.*1 → Slot1 ∈ sync1.*1 →
  ∃ w' m, dup_aio_cancel sync0 sync1 w = Ok w'
    ∧ in_flight w' Slot0 = false ∧ in_flight w' Slot1 = false
    ∧ delivered w' = [(f, ctx, m)]
    ∧ count (dcb w') = 0
    ∧ held w' = []
    ∧ released w' = 1%nat.
Proof.
  intros Hiss Hrun Hok H0 H1.
  destruct (issued_inv f ctx w0 Hiss) as (bs & HI & _).
  pose proof (run_handles_stored _ t w0 w HI (issued_handles_stored f ctx w0 Hiss) Hrun)
    as Hst.
  destruct (run_inv _ t w0 HI) as [E|(w' & E & HI')]; rewrite E in Hrun;
    [discriminate|]. injection Hrun as ->.
  destruct (dup_aio_cancel_inv _ sync0 sync1 w HI' Hok)
    as (w' & new & Hrun & [Hcore' _] & _ & _ & Hrel' & _).
  pose proof HI' as [Hcore _].
  destruct (dup_aio_cancel_flight _ sync0 sync1 w Hcore Hst) as (w2 & Hrun2 & _ & Hf0 & Hf1).
  rewrite Hrun in Hrun2. injection Hrun2 as <-.
  specialize (Hf0 H0). specialize (Hf1 H1).
  assert (Hz : outstanding w' = 0) by (apply outstanding_zero; auto).
  destruct Hcore' as (_ & _ & Hn & Hh & _ & _ & Hd).
  rewrite Hz in Hd. simpl in Hd.
  exists w', (ret (dcb w')). split_and!; auto; [congruence|].
  unfold held. rewrite (Hh Slot0 Hf0), (Hh Slot1 Hf1). reflexivity.
Qed.


(** X9 on [demo_request], cancelled right after it was issued. *)
Lemma synchronous_cancel_completes_witness :
  ∃ w' m, dup_aio_cancel demo_sync_cancel_0 demo_sync_cancel_1 demo_request = Ok w'
    ∧ in_flight w' Slot0 = false ∧ in_flight w' Slot1 = false
    ∧ delivered w' = [(7%nat, 42, m)]
    ∧ count (dcb w') = 0
    ∧ held w' = []
    ∧ released w' = 1%nat.
Proof.
  apply (synchronous_cancel_completes 7%nat 42 demo_request [] demo_request).
  - left. exists demo_store, demo_stale, 10%nat, 1%positive, 64, [], 8.
    vm_compute. reflexivity.
  - reflexivity.
  - reflexivity.
  - vm_compute. apply list_elem_of_here.
  - vm_compute. apply list_elem_of_here.
Defined.

(** * Properties of the mutex-guarded counter *)

(** ** One thread on its own *)

Lemma run_sched_app s1 s2 c : run_sched (s1 ++ s2) c = run_sched s2 (run_sched s1 c).
Proof. revert c. induction s1 as [|i s1 IH]; intros c; simpl; [reflexivity | apply IH]. Qed.

Lemma run_sched_stuck i n c : sched_step i c = c → run_sched (replicate n i) c = c.
Proof. intros H. induction n as [|n IH]; simpl; [reflexivity|]. rewrite H. exact IH. Qed.

Lemma sched_step_at i l sh th th' sh' :
  l !! i = Some th → thread_step i th sh = Some (th', sh') →
  sched_step i (l, sh) = (<[i := th']> l, sh').
Proof. intros Hl Hs. unfold sched_step. simpl. rewrite Hl, Hs. reflexivity. Qed.

Lemma inc_read_step t sh :
  atomic_inc_with_qemu_mutex t IncRead sh
  = Some (if counter sh =? 0 then IncLock else IncCas (counter sh), sh).
Proof. reflexivity. Qed.

Lemma inc_cas_step t old sh :
  atomic_inc_with_qemu_mutex t (IncCas old) sh
  = Some (if counter sh =? old then IncReturn else IncRead,
          if counter sh =? old then mkShared (int_wrap (old + 1)) (mutex sh) else sh).
Proof. reflexivity. Qed.

Lemma dec_read_step t sh :
  atomic_dec_and_qemu_mutex_lock t DecRead sh
  = Some (if counter sh =? 1 then DecLock else DecCas (counter sh), sh).
Proof. reflexivity. Qed.

Lemma dec_cas_step t old sh :
  atomic_dec_and_qemu_mutex_lock t (DecCas old) sh
  = Some (if counter sh =? old then DecReturn false else DecRead,
          if counter sh =? old then mkShared (int_wrap (old - 1)) (mutex sh) else sh).
Proof. reflexivity. Qed.

Lemma dec_fetch_step t sh :
  atomic_dec_and_qemu_mutex_lock t DecFetch sh
  = Some (if counter sh =? 1 then DecReturn true else DecUnlock,
          mkShared (int_wrap (counter sh - 1)) (mutex sh)).
Proof. reflexivity. Qed.

(** A call that found the counter away from the value that needs the
    mutex: the read and the compare-and-swap, undisturbed. *)
Lemma inc_fast_path x :
  x ≠ 0 →
  sched_step 0%nat ([TInc IncRead], mkShared x None) = ([TInc (IncCas x)], mkShared x None)
  ∧ sched_step 0%nat ([TInc (IncCas x)], mkShared x None)
    = ([TInc IncReturn], mkShared (int_wrap (x + 1)) None).
Proof.
  intros Hx. apply Z.eqb_neq in Hx. split.
  - erewrite sched_step_at; [reflexivity | reflexivity |].
    unfold thread_step. rewrite inc_read_step. simpl. rewrite Hx. reflexivity.
  - erewrite sched_step_at; [reflexivity | reflexivity |].
    unfold thread_step. rewrite inc_cas_step. simpl. rewrite Z.eqb_refl. reflexivity.
Qed.

Lemma dec_fast_path x :
  x ≠ 1 →
  sched_step 0%nat ([TDec DecRead], mkShared x None) = ([TDec (DecCas x)], mkShared x None)
  ∧ sched_step 0%nat ([TDec (DecCas x)], mkShared x None)
    = ([TDec (DecReturn false)], mkShared (int_wrap (x - 1)) None).
Proof.
  intros Hx. apply Z.eqb_neq in Hx. split.
  - erewrite sched_step_at; [reflexivity | reflexivity |].
    unfold thread_step. rewrite dec_read_step. simpl. rewrite Hx. reflexivity.
  - erewrite sched_step_at; [reflexivity | reflexivity |].
    unfold thread_step. rewrite dec_cas_step. simpl. rewrite Z.eqb_refl. reflexivity.
Qed.

(** X10. A call of [atomic_inc_with_qemu_mutex] that runs undisturbed, the
    mutex free, returns after at most four steps with the counter
    incremented (wrapping as [int] does) and the mutex free again.  It goes
    through the mutex exactly when it found the counter at zero: then it
    holds the mutex while it increments, otherwise the mutex is never
    taken. *)
Theorem inc_alone x n :
  (4 ≤ n)%nat →
  let c0 : config := ([TInc IncRead], mkShared x None) in
  run_sched (replicate n 0%nat) c0
    = ([TInc IncReturn], mkShared (int_wrap (x + 1)) None)
  ∧ (x = 0 → run_sched [0%nat; 0%nat] c0 = ([TInc IncAdd], mkShared 0 (Some 0%nat)))
  ∧ (x ≠ 0 → ∀ k, mutex (run_sched (replicate k 0%nat) c0).2 = None).
Proof.
  intros Hn c0. unfold c0.
  destruct (x =? 0) eqn:E.
  - apply Z.eqb_eq in E. subst x. split_and!.
    + replace n with (4 + (n - 4))%nat by lia. rewrite replicate_add, run_sched_app.
      apply run_sched_stuck. reflexivity.
    + intros _. reflexivity.
    + intros H. contradiction.
  - assert (Hx : x ≠ 0) by (apply Z.eqb_neq, E).
    destruct (inc_fast_path x Hx) as [S1 S2].
    assert (H2 : run_sched [0%nat; 0%nat] ([TInc IncRead], mkShared x None)
                 = ([TInc IncReturn], mkShared (int_wrap (x + 1)) None)).
    { cbn [run_sched]. rewrite S1, S2. reflexivity. }
    split_and!.
    + replace n with (2 + (n - 2))%nat by lia. rewrite replicate_add, run_sched_app.
      change (replicate 2 0%nat) with [0%nat; 0%nat]. rewrite H2.
      apply run_sched_stuck. reflexivity.
    + intros H. contradiction.
    + intros _ k. destruct k as [|[|k]].
      * reflexivity.
      * cbn [replicate run_sched]. rewrite S1. reflexivity.
      * change (S (S k)) with (2 + k)%nat. rewrite replicate_add, run_sched_app.
        change (replicate 2 0%nat) with [0%nat; 0%nat]. rewrite H2.
        rewrite run_sched_stuck by reflexivity. reflexivity.
Qed.

(** X11. A call of [atomic_dec_and_qemu_mutex_lock] that runs undisturbed,
    the mutex free, returns after at most three steps with the counter
    decremented; it returns [true] exactly when it took the counter from 1
    to 0, and then, and only then, it returns with the mutex held. *)
Theorem dec_alone x n :
  (3 ≤ n)%nat →
  run_sched (replicate n 0%nat) ([TDec DecRead], mkShared x None)
    = ([TDec (DecReturn (x =? 1))],
       mkShared (int_wrap (x - 1)) (if x =? 1 then Some 0%nat else None)).
Proof.
  intros Hn. destruct (x =? 1) eqn:E.
  - apply Z.eqb_eq in E. subst x.
    replace n with (3 + (n - 3))%nat by lia. rewrite replicate_add, run_sched_app.
    apply run_sched_stuck. reflexivity.
  - replace n with (2 + (n - 2))%nat by lia. rewrite replicate_add, run_sched_app.
    assert (Hx : x ≠ 1) by (apply Z.eqb_neq, E).
    destruct (dec_fast_path x Hx) as [S1 S2].
    assert (H2 : run_sched [0%nat; 0%nat] ([TDec DecRead], mkShared x None)
                 = ([TDec (DecReturn false)], mkShared (int_wrap (x - 1)) None)).
    { cbn [run_sched]. rewrite S1, S2. reflexivity. }
    change (replicate 2 0%nat) with [0%nat; 0%nat]. rewrite H2.
    apply run_sched_stuck. reflexivity.
Qed.

(** X10, X11 run: an increment from zero, and the last reference dropped. *)
Lemma inc_alone_witness :
  run_sched (replicate 5 0%nat) ([TInc IncRead], mkShared 0 None)
    = ([TInc IncReturn], mkShared (int_wrap (0 + 1)) None)
  ∧ (0 = 0 → run_sched [0%nat; 0%nat] ([TInc IncRead], mkShared 0 None)
             = ([TInc IncAdd], mkShared 0 (Some 0%nat)))
  ∧ (0 ≠ 0 → ∀ k, mutex (run_sched (replicate k 0%nat)
                           ([TInc IncRead], mkShared 0 None)).2 = None).
Proof. apply (inc_alone 0 5). lia. Defined.

Lemma dec_alone_witness :
  run_sched (replicate 3 0%nat) ([TDec DecRead], mkShared 1 None)
    = ([TDec (DecReturn (1 =? 1))],
       mkShared (int_wrap (1 - 1)) (if 1 =? 1 then Some 0%nat else None)).
Proof. apply (dec_alone 1 3). lia. Defined.

(** ** Threads interleaved *)

Lemma sched_step_spec i c :
  sched_step i c = c
  ∨ ∃ th th' sh', c.1 !! i = Some th
      ∧ thread_step i th c.2 = Some (th', sh')
      ∧ sched_step i c = (<[i := th']> c.1, sh').
Proof.
  unfold sched_step. destruct (c.1 !! i) as [th|] eqn:Hl; [|left; reflexivity].
  destruct (thread_step i th c.2) as [[th' sh']|] eqn:Hs; [|left; reflexivity].
  right. exists th, th', sh'. auto.
Qed.

Lemma thread_step_of t th sh th' sh' :
  thread_step t th sh = Some (th', sh') → step_of t th sh th' sh'.
Proof.
  destruct th as [pc|pc]; destruct pc; unfold thread_step;
    rewrite ?inc_read_step, ?inc_cas_step, ?dec_read_step, ?dec_cas_step, ?dec_fetch_step;
    simpl; try discriminate.
  - intros [= <- <-]. constructor.
  - unfold qemu_mutex_lock. destruct sh as [x [o|]]; simpl; [discriminate|].
    intros [= <- <-]. constructor.
  - intros [= <- <-]. apply StIncAdd.
  - intros [= <- <-]. apply StIncUnlock.
  - destruct (counter sh =? old) eqn:E; intros [= <- <-].
    + apply Z.eqb_eq in E. subst old. constructor.
    + apply Z.eqb_neq in E. constructor. exact E.
  - intros [= <- <-]. constructor.
  - unfold qemu_mutex_lock. destruct sh as [x [o|]]; simpl; [discriminate|].
    intros [= <- <-]. constructor.
  - intros [= <- <-]. constructor.
  - intros [= <- <-]. apply StDecUnlock.
  - destruct (counter sh =? old) eqn:E; intros [= <- <-].
    + apply Z.eqb_eq in E. subst old. constructor.
    + apply Z.eqb_neq in E. constructor. exact E.
Qed.

(** An invariant of every step is an invariant of every schedule. *)
Lemma run_sched_invariant (P : config → Prop) :
  (∀ i c, P c → P (sched_step i c)) →
  ∀ sched c, P c → P (run_sched sched c).
Proof.
  intros Hstep sched. induction sched as [|i sched IH]; intros c Hc; simpl; [exact Hc|].
  apply IH, Hstep, Hc.
Qed.

Lemma lookup_insert_thread (l : list thread) i j th th0 :
  l !! i = Some th0 →
  <[i := th]> l !! j = if decide (i = j) then Some th else l !! j.
Proof.
  intros Hi. destruct (decide (i = j)) as [<-|Hne].
  - apply list_lookup_insert_eq. apply lookup_lt_Some in Hi. exact Hi.
  - apply list_lookup_insert_ne, Hne.
Qed.

Lemma holds_initial th : initial th → holds th = false.
Proof. intros [->| ->]; reflexivity. Qed.

Lemma mutex_ok_step i c : mutex_ok c → mutex_ok (sched_step i c).
Proof.
  intros Hok. destruct (sched_step_spec i c) as [->|(th & th' & sh' & Hl & Hs & ->)];
    [exact Hok|].
  apply thread_step_of in Hs. destruct c as [l sh]. cbn [fst snd] in *.
  pose proof (Hok i th Hl) as Hi. cbn [fst snd] in Hi.
  intros j thj Hj. cbn [fst snd] in *.
  rewrite (lookup_insert_thread l i j th' th Hl) in Hj.
  destruct (decide (i = j)) as [<-|Hne].
  - injection Hj as <-.
    inversion Hs; subst; simpl in *;
      repeat match goal with
      | |- context [if ?b then _ else _] => destruct b
      end; simpl; try tauto;
      try (split; [discriminate | intros; apply Hi; assumption]).
    all: try (split; [intros _; apply Hi; reflexivity | reflexivity]).
    all: try (split; [discriminate | intros [=]]).
    all: try (split; [discriminate | intros H; apply Hi in H; discriminate]).
  - pose proof (Hok j thj Hj) as Hjj. cbn [fst snd] in Hjj.
    inversion Hs; subst; cbn [holds mutex counter] in *; try exact Hjj.
    + split; [intros H; apply Hjj in H; discriminate | intros [= E]; congruence].
    + assert (Hown : mutex sh = Some i) by (apply Hi; reflexivity).
      split; [intros H; apply Hjj in H; congruence | discriminate].
    + split; [intros H; apply Hjj in H; discriminate | intros [= E]; congruence].
    + assert (Hown : mutex sh = Some i) by (apply Hi; reflexivity).
      split; [intros H; apply Hjj in H; congruence | discriminate].
Qed.

Lemma mutex_ok_initial l x : Forall initial l → mutex_ok (l, mkShared x None).
Proof.
  intros Hall i th Hl. cbn [fst snd mutex] in *.
  rewrite (holds_initial th); [split; discriminate|].
  eapply Forall_lookup_1; eassumption.
Qed.

(** X12. Whatever the interleaving of any number of calls of the two
    functions, a thread is between its lock and its unlock exactly when the
    mutex is held in its name, so at most one thread is.  A call of
    [atomic_dec_and_qemu_mutex_lock] that returned [true] holds the mutex,
    one that returned [false] does not, and a call of
    [atomic_inc_with_qemu_mutex] that returned does not either. *)
Theorem mutex_exclusive sched l0 x0 :
  Forall initial l0 →
  let c := run_sched sched (l0, mkShared x0 None) in
  (∀ i th, c.1 !! i = Some th → (holds th = true ↔ mutex c.2 = Some i))
  ∧ (∀ i j thi thj, c.1 !! i = Some thi → c.1 !! j = Some thj →
       holds thi = true → holds thj = true → i = j)
  ∧ (∀ i b, c.1 !! i = Some (TDec (DecReturn b)) →
       (b = true ↔ mutex c.2 = Some i))
  ∧ (∀ i, c.1 !! i = Some (TInc IncReturn) → mutex c.2 ≠ Some i).
Proof.
  intros Hall c.
  assert (Hok : mutex_ok c).
  { apply (run_sched_invariant mutex_ok mutex_ok_step), mutex_ok_initial, Hall. }
  split_and!.
  - exact Hok.
  - intros i j thi thj Hi Hj Hhi Hhj.
    apply (Hok i thi Hi) in Hhi. apply (Hok j thj Hj) in Hhj. congruence.
  - intros i b Hi. rewrite <- (Hok i _ Hi). destruct b; simpl; split; congruence.
  - intros i Hi Hm. apply (Hok i _ Hi) in Hm. discriminate.
Qed.

(** X12 on [demo_threads] under [demo_schedule]. *)
Lemma mutex_exclusive_witness :
  let c := run_sched demo_schedule (demo_threads, mkShared 1 None) in
  (∀ i th, c.1 !! i = Some th → (holds th = true ↔ mutex c.2 = Some i))
  ∧ (∀ i j thi thj, c.1 !! i = Some thi → c.1 !! j = Some thj →
       holds thi = true → holds thj = true → i = j)
  ∧ (∀ i b, c.1 !! i = Some (TDec (DecReturn b)) →
       (b = true ↔ mutex c.2 = Some i))
  ∧ (∀ i, c.1 !! i = Some (TInc IncReturn) → mutex c.2 ≠ Some i).
Proof.
  apply (mutex_exclusive demo_schedule demo_threads 1).
  repeat constructor; (left; reflexivity) || (right; reflexivity).
Defined.

(** ** Every call counts once *)

Lemma int_wrap_add a b : int_wrap (int_wrap a + b) = int_wrap (a + b).
Proof.
  unfold int_wrap. f_equal.
  replace ((a + 2 ^ 31) mod 2 ^ 32 - 2 ^ 31 + b + 2 ^ 31)
    with ((a + 2 ^ 31) mod 2 ^ 32 + b) by lia.
  rewrite Zplus_mod_idemp_l. f_equal. lia.
Qed.

Lemma net_insert l i th th' :
  l !! i = Some th → net (<[i := th']> l) = net l - applied th + applied th'.
Proof.
  revert i. induction l as [|a l IH]; intros i Hl; [discriminate|].
  destruct i as [|i]; simpl in *.
  - injection Hl as ->. lia.
  - rewrite (IH i Hl). lia.
Qed.

Lemma net_initial l : Forall initial l → net l = 0.
Proof.
  induction 1 as [|th l [->| ->] _ IH]; simpl; [reflexivity | |]; rewrite IH; reflexivity.
Qed.

Lemma counted_step x0 i c :
  counter c.2 = int_wrap (x0 + net c.1) →
  counter (sched_step i c).2 = int_wrap (x0 + net (sched_step i c).1).
Proof.
  intros Hc. destruct (sched_step_spec i c) as [->|(th & th' & sh' & Hl & Hs & ->)];
    [exact Hc|].
  apply thread_step_of in Hs. destruct c as [l sh]. cbn [fst snd] in *.
  rewrite (net_insert l i th th' Hl).
  inversion Hs; subst; cbn [applied counter] in *.
  all: repeat match goal with
       | |- context [if ?b then _ else _] => destruct b
       end; cbn [applied].
  all: rewrite ?Hc; rewrite <- ?Z.add_opp_r; rewrite ?int_wrap_add; f_equal; lia.
Qed.

(** X13. Whatever the interleaving, no update is lost and none is made
    twice: at every moment the counter is its initial value plus the
    number of increments applied less the number of decrements applied
    (as an [int]); when all calls have returned, every call has counted
    exactly once. *)
Theorem counter_counts_every_call sched l0 x0 :
  Forall initial l0 → in_int x0 →
  let c := run_sched sched (l0, mkShared x0 None) in
  counter c.2 = int_wrap (x0 + net c.1).
Proof.
  intros Hall Hx c.
  apply (run_sched_invariant (λ c, counter c.2 = int_wrap (x0 + net c.1))).
  - intros i c0. apply counted_step.
  - cbn [fst snd counter]. rewrite (net_initial l0 Hall), Z.add_0_r.
    symmetry. apply int_wrap_id, Hx.
Qed.

(** X13 on [demo_threads]: one decrement and two increments from 1. *)
Lemma counter_counts_every_call_witness :
  counter (run_sched demo_schedule (demo_threads, mkShared 1 None)).2
  = int_wrap (1 + net (run_sched demo_schedule (demo_threads, mkShared 1 None)).1).
Proof.
  apply (counter_counts_every_call demo_schedule demo_threads 1).
  - repeat constructor; (left; reflexivity) || (right; reflexivity).
  - unfold in_int, INT_MIN, INT_MAX. lia.
Defined.

(** ** The counter stays at zero under the lock *)

Lemma cas_nonzero_step i c : cas_nonzero c → cas_nonzero (sched_step i c).
Proof.
  intros Hok. destruct (sched_step_spec i c) as [->|(th & th' & sh' & Hl & Hs & ->)];
    [exact Hok|].
  apply thread_step_of in Hs. destruct c as [l sh]. cbn [fst snd] in *.
  intros j old Hj. cbn [fst snd] in Hj.
  rewrite (lookup_insert_thread l i j th' th Hl) in Hj.
  destruct (decide (i = j)) as [<-|Hne]; [|exact (Hok j old Hj)].
  injection Hj as ->. inversion Hs as [sh0 | | | | | | | | | | |]; subst.
  destruct (counter sh' =? 0) eqn:E; [discriminate|].
  match goal with H : _ = IncCas old |- _ => injection H as <- end.
  apply Z.eqb_neq, E.
Qed.

Lemma others_inc_step k i c :
  (∀ j th, j ≠ k → c.1 !! j = Some th → is_inc th) →
  (∀ j th, j ≠ k → (sched_step i c).1 !! j = Some th → is_inc th).
Proof.
  intros Hinc. destruct (sched_step_spec i c) as [->|(th & th' & sh' & Hl & Hs & ->)];
    [exact Hinc|].
  apply thread_step_of in Hs. destruct c as [l sh]. cbn [fst snd] in *.
  intros j thj Hjk Hj.
  rewrite (lookup_insert_thread l i j th' th Hl) in Hj.
  destruct (decide (i = j)) as [<-|Hne]; [|exact (Hinc j thj Hjk Hj)].
  injection Hj as <-. destruct (Hinc i th Hjk Hl) as [pc ->].
  inversion Hs; subst; eexists; reflexivity.
Qed.

Lemma returned_locked_step k i c :
  c.1 !! k = Some (TDec (DecReturn true)) →
  (sched_step i c).1 !! k = Some (TDec (DecReturn true)).
Proof.
  intros Hk. destruct (sched_step_spec i c) as [->|(th & th' & sh' & Hl & Hs & ->)];
    [exact Hk|].
  destruct c as [l sh]. cbn [fst snd] in *.
  rewrite (lookup_insert_thread l i k th' th Hl).
  destruct (decide (i = k)) as [->|Hne]; [|exact Hk].
  rewrite Hk in Hl. injection Hl as <-. discriminate Hs.
Qed.

(** The step that matters: with thread [k] returned from the decrement
    with the mutex, and every other thread an increment, no step moves the
    counter off zero or lets an increment in. *)
Lemma zero_under_lock_step k i c :
  mutex_ok c → cas_nonzero c →
  (∀ j th, j ≠ k → c.1 !! j = Some th → is_inc th) →
  c.1 !! k = Some (TDec (DecReturn true)) → counter c.2 = 0 →
  counter (sched_step i c).2 = 0
  ∧ (∀ j, j ≠ k → c.1 !! j ≠ Some (TInc IncAdd) →
       (sched_step i c).1 !! j ≠ Some (TInc IncAdd)).
Proof.
  intros Hm Hcas Hinc Hk Hz.
  assert (Hown : mutex c.2 = Some k) by (apply (Hm k _ Hk); reflexivity).
  destruct (sched_step_spec i c) as [->|(th & th' & sh' & Hl & Hs & ->)];
    [split; [exact Hz | auto]|].
  apply thread_step_of in Hs. destruct c as [l sh]. cbn [fst snd] in *.
  destruct (decide (i = k)) as [->|Hik].
  { rewrite Hk in Hl. injection Hl as <-. inversion Hs. }
  destruct (Hinc i th Hik Hl) as [pc ->].
  pose proof (Hm i _ Hl) as Hi. cbn [fst snd] in Hi.
  assert (Hnot : holds (TInc pc) = true → False).
  { intros H. apply Hi in H. congruence. }
  inversion Hs; subst; cbn [counter mutex holds] in *;
    try (exfalso; apply Hnot; reflexivity); try discriminate.
  - split; [exact Hz|]. intros j Hjk Hj.
    rewrite (lookup_insert_thread l i j _ _ Hl).
    destruct (decide (i = j)); [destruct (counter sh' =? 0); discriminate | exact Hj].
  - exfalso. apply (Hcas i _ Hl). exact Hz.
  - split; [exact Hz|]. intros j Hjk Hj.
    rewrite (lookup_insert_thread l i j _ _ Hl).
    destruct (decide (i = j)); [discriminate | exact Hj].
Qed.

(** X14. The comment of [atomic_dec_and_qemu_mutex_lock]: "Used together
    with atomic_inc_with_qemu_mutex, it is impossible for the counter to
    become nonzero while the mutex is taken."  Let one thread call the
    decrement and all others the increment, interleaved in any way.  If
    the decrement has returned [true], the counter is 0 and the mutex is
    that thread's; and however the others then run, the counter stays 0,
    the mutex stays taken and no increment gets past its lock. *)
Theorem counter_zero_while_locked sched sched' l0 x0 k :
  Forall initial l0 →
  (∀ j th, j ≠ k → l0 !! j = Some th → is_inc th) →
  let c := run_sched sched (l0, mkShared x0 None) in
  c.1 !! k = Some (TDec (DecReturn true)) →
  (∀ j, j ≠ k → c.1 !! j ≠ Some (TInc IncAdd))
  ∧ let c' := run_sched sched' c in
    counter c'.2 = 0
    ∧ mutex c'.2 = Some k
    ∧ c'.1 !! k = Some (TDec (DecReturn true))
    ∧ (∀ j, j ≠ k → c'.1 !! j ≠ Some (TInc IncAdd)).
Proof.
  intros Hall Hinc c Hk.
  set (P := λ c : config,
         mutex_ok c ∧ cas_nonzero c
         ∧ (∀ j th, j ≠ k → c.1 !! j = Some th → is_inc th)
         ∧ (c.1 !! k = Some (TDec (DecReturn true)) → counter c.2 = 0)).
  assert (HPstep : ∀ i c, P c → P (sched_step i c)).
  { intros i c0 (Hm & Hcas & Hi & Hz). unfold P. split_and!.
    - apply mutex_ok_step, Hm.
    - apply cas_nonzero_step, Hcas.
    - apply others_inc_step, Hi.
    - intros Hk'.
      destruct (sched_step_spec i c0) as [E|(th & th' & sh' & Hl & Hs & E)].
      + rewrite E in Hk' |- *. apply Hz, Hk'.
      + destruct (decide (i = k)) as [->|Hne].
        * rewrite E in Hk' |- *. apply thread_step_of in Hs.
          destruct c0 as [l sh]. cbn [fst snd] in *.
          rewrite (lookup_insert_thread l k k th' th Hl) in Hk'.
          rewrite decide_True in Hk' by reflexivity.
          injection Hk' as ->. inversion Hs; subst.
          all: match goal with H : context [counter ?s =? 1] |- _ =>
                 destruct (counter s =? 1) eqn:E1; try discriminate end.
          apply Z.eqb_eq in E1. cbn [counter]. rewrite E1. reflexivity.
        * assert (Hold : c0.1 !! k = Some (TDec (DecReturn true))).
          { rewrite E in Hk'. destruct c0 as [l sh]. cbn [fst snd] in *.
            rewrite (lookup_insert_thread l i k th' th Hl) in Hk'.
            rewrite decide_False in Hk' by exact Hne. exact Hk'. }
          apply (zero_under_lock_step k i c0 Hm Hcas Hi Hold (Hz Hold)). }
  assert (HP : P c).
  { apply (run_sched_invariant P HPstep). unfold P. split_and!.
    - apply mutex_ok_initial, Hall.
    - intros j old Hj. cbn [fst] in Hj.
      pose proof (Forall_lookup_1 _ _ _ _ Hall Hj) as [H|H]; discriminate.
    - exact Hinc.
    - intros Hk0. cbn [fst] in Hk0.
      pose proof (Forall_lookup_1 _ _ _ _ Hall Hk0) as [H|H]; discriminate. }
  set (Q := λ c : config,
         P c ∧ c.1 !! k = Some (TDec (DecReturn true))
         ∧ (∀ j, j ≠ k → c.1 !! j ≠ Some (TInc IncAdd))).
  assert (HQ : Q c).
  { split; [exact HP|]. split; [exact Hk|].
    destruct HP as (Hm & _). intros j Hjk Hj.
    assert (H1 : mutex c.2 = Some j) by (apply (Hm j _ Hj); reflexivity).
    assert (H2 : mutex c.2 = Some k) by (apply (Hm k _ Hk); reflexivity).
    congruence. }
  split; [apply HQ|].
  assert (HQ' : Q (run_sched sched' c)).
  { apply (run_sched_invariant Q); [|exact HQ].
    intros i c0 (HP0 & Hk0 & Hno). pose proof HP0 as (Hm & Hcas & Hi & Hz).
    split; [apply HPstep, HP0|]. split; [apply returned_locked_step, Hk0|].
    intros j Hjk. apply (zero_under_lock_step k i c0 Hm Hcas Hi Hk0 (Hz Hk0)); auto. }
  destruct HQ' as ((Hm & _ & _ & Hz) & Hk' & Hno).
  split_and!; auto. apply (Hm k _ Hk'). reflexivity.
Qed.

(** X14 on [demo_threads]: the decrement (thread 0) takes the counter from
    1 to 0 and returns with the mutex; both increments end up waiting. *)
Lemma counter_zero_while_locked_witness :
  let c := run_sched [1; 0; 0; 0]%nat (demo_threads, mkShared 1 None) in
  (∀ j, j ≠ 0%nat → c.1 !! j ≠ Some (TInc IncAdd))
  ∧ let c' := run_sched [1; 1; 2; 2; 2; 1; 2]%nat c in
    counter c'.2 = 0
    ∧ mutex c'.2 = Some 0%nat
    ∧ c'.1 !! 0%nat = Some (TDec (DecReturn true))
    ∧ (∀ j, j ≠ 0%nat → c'.1 !! j ≠ Some (TInc IncAdd)).
Proof.
  apply (counter_zero_while_locked [1; 0; 0; 0]%nat [1; 1; 2; 2; 2; 1; 2]%nat
           demo_threads 1 0%nat).
  - repeat constructor; (left; reflexivity) || (right; reflexivity).
  - intros [|[|[|j]]] th Hj Hl; [contradiction | | |discriminate];
      injection Hl as <-; eexists; reflexivity.
  - vm_compute. reflexivity.
Defined.
